(** * flume: the logger factory and the logger facade

  A shallow embedding of [factory.go] (the [Factory] registry, the
  level-string DSL, [Configure]) and of [logger.go] (the atomic logger
  handle and the [logger] facade with its baked-in context), followed by
  the properties of the specification that are checked against them. *)

From Stdlib Require Import ZArith Ascii String.
From stdpp Require Import base strings list gmap fin_maps.

Local Open Scope string_scope.
Local Open Scope list_scope.
Local Open Scope nat_scope.

(** ** Go's [strings] package, on byte strings *)

(** [strings.Split(s, sep)] for a one-byte separator. *)
Fixpoint Split (s : string) (sep : ascii) : list string :=
  match s with
  | EmptyString => [EmptyString]
  | String a rest =>
      if Ascii.eqb a sep then EmptyString :: Split rest sep
      else match Split rest sep with
           | hd :: tl => String a hd :: tl
           | [] => [String a EmptyString]
           end
  end.

(** [strings.HasPrefix(s, p)] for a one-byte prefix. *)
Definition HasPrefix (s : string) (p : ascii) : bool :=
  match s with
  | String a _ => Ascii.eqb a p
  | EmptyString => false
  end.

(** The slice expression [s[1:]] on a string known to be non-empty. *)
Definition from1 (s : string) : string :=
  match s with
  | String _ rest => rest
  | EmptyString => EmptyString
  end.

(** [strings.Join(elems, sep)]. *)
Fixpoint Join (elems : list string) (sep : string) : string :=
  match elems with
  | [] => EmptyString
  | [e] => e
  | e :: rest => e +:+ sep +:+ Join rest sep
  end.

(** Lower-casing of one byte of the ASCII range. *)
Definition lower_byte (a : ascii) : ascii :=
  let n := nat_of_ascii a in
  if (65 <=? n)%nat && (n <=? 90)%nat then ascii_of_nat (n + 32) else a.

Fixpoint lower_bytes (s : string) : string :=
  match s with
  | EmptyString => EmptyString
  | String a rest => String (lower_byte a) (lower_bytes rest)
  end.

(** A string all of whose bytes are below 0x80. *)
Fixpoint isASCII (s : string) : bool :=
  match s with
  | EmptyString => true
  | String a rest => (nat_of_ascii a <? 128)%nat && isASCII rest
  end.

(** ** Values that come from zap and from the rest of the package

    The encoders, the encoder configuration and [Config] are declared in
    other files of the package; they are modelled by what [factory.go] does
    with them: which constructor is called on which configuration, and
    which fields are read or defaulted. *)

Inductive CallerEncoder := ShortCallerEncoder | UserCallerEncoder (id : N).
Inductive LevelEncoder := AbbrLevelEncoder | UserLevelEncoder (id : N).

Record EncoderConfig := mkEncoderConfig {
  EncodeCaller : option CallerEncoder;
  EncodeLevel : option LevelEncoder;
  otherKeys : N
}.

Inductive Encoder :=
| NewJSONEncoder (c : EncoderConfig)
| NewLTSVEncoder (c : EncoderConfig)
| NewConsoleEncoder (c : EncoderConfig)
| NewColorizedConsoleEncoder (c : EncoderConfig)
| zapNewConsoleEncoder (c : EncoderConfig)
| UserEncoder (id : N).

(** An [io.Writer]: [os.Stdout] or some other sink. *)
Inductive Writer := Stdout | Sink (id : N).

Record Config := mkConfig {
  DefaultLevel : Z;
  cfgEncoderConfig : option EncoderConfig;
  Encoding : string;
  Development : bool;
  AddCaller : option bool;
  Levels : string
}.

(** ** What the source takes from outside

    [Level] is [zapcore.Level], an integer.  The seven level constants that
    [factory.go] names and the two default encoder configurations are
    declared in other files of the package, and [strings.ToLower] is
    Unicode-aware outside the ASCII range: they are parameters.  [ToLower]
    is only required to agree with the byte-wise lowering on ASCII strings,
    which is the fast path of the Go function.  [range] is the order in
    which a [for ... range] loop visits a map: Go leaves it unspecified, so
    it is any enumeration of the map.  [growslice] is the capacity that
    [append] gives a reallocated backing array, from the old capacity and
    the length needed. *)

Abbreviation Level := Z (only parsing).

Class Env := {
  AllLevel : Level;
  DebugLevel : Level;
  InfoLevel : Level;
  WarnLevel : Level;
  ErrorLevel : Level;
  PanicLevel : Level;
  OffLevel : Level;
  NewEncoderConfig : EncoderConfig;
  NewDevelopmentEncoderConfig : EncoderConfig;
  ToLower : string → string;
  ToLower_ascii : ∀ s, isASCII s = true → ToLower s = lower_bytes s;
  range : ∀ {A}, gmap string A → list (string * A);
  range_perm : ∀ A (m : gmap string A), range m ≡ₚ map_to_list m;
  growslice : nat → nat → nat;
  growslice_fits : ∀ oldcap needed : nat, (needed ≤ growslice oldcap needed)%nat
}.

(** Go's [error] values carry a message; [nil] is [None]. *)
Abbreviation error := (option string) (only parsing).

(** ** The level-string DSL: [levelForAbbr] and [parseConfigString] *)

Definition one_of (s : string) (l : list string) : bool := bool_decide (s ∈ l).

Definition levelForAbbr `{Env} (abbr : string) : Level * error :=
  let s := ToLower abbr in
  if one_of s [""] then (AllLevel, None)
  else if one_of s ["off"] then (OffLevel, None)
  else if one_of s ["trc"; "trace"] then
    (DebugLevel, Some "TRC is deprecated, mapped to DEBUG")
  else if one_of s ["dbg"; "debug"] then (DebugLevel, None)
  else if one_of s ["inf"; "info"] then (InfoLevel, None)
  else if one_of s ["wrn"; "warn"] then
    (WarnLevel, Some "WRN is deprecated, use INF")
  else if one_of s ["err"; "error"] then (ErrorLevel, None)
  else if one_of s ["pan"; "panic"] then
    (PanicLevel, Some "PAN is deprecated, use ERR")
  else if one_of s ["ftl"; "fatal"] then
    (PanicLevel, Some "FTL is deprecated, use ERR, mapped to PANIC")
  else (WarnLevel, Some (abbr +:+ " not recognized level, defaulting to warn")).

(** The values of the [map[string]interface{}] that [parseConfigString]
    builds: a [bool] or a [string]. *)
Inductive setting := SBool (b : bool) | SString (s : string).

(** One turn of the loop over the comma-separated items. *)
Definition parseItem (m : gmap string setting) (item : string) : gmap string setting :=
  match Split item "=" with
  | [name] =>
      if HasPrefix name "-"
      then <[from1 name := SBool false]> m
      else <[name := SBool true]> m
  | [k; v] => <[k := SString v]> m
  | _ => m
  end.

(** The [nil] map returned for the empty string behaves as the empty map
    for the lookups and the [range] loop of the caller. *)
Definition parseConfigString (s : string) : gmap string setting :=
  if bool_decide (s = "") then ∅
  else foldl parseItem ∅ (Split s ",").

(** ** The registry: [loggerInfo], [atomicLogger], [Factory]

    [zapcore.LevelEnabler] values stored in a [loggerInfo] are either a
    constant [zapcore.Level(l)] or the factory's own [zap.AtomicLevel]
    [r.defaultLevel], a shared cell that is read when a record is logged. *)

Inductive LevelEnabler :=
| ConstLevel (l : Level)
| AtomicDefault.

(** The concrete instance that [newLogger] builds: the core's encoder, sink
    and level enabler, the [zap.AddCaller] option and the name. *)
Record SugaredLogger := mkSugared {
  coreEncoder : Encoder;
  coreOut : Writer;
  coreEnabler : LevelEnabler;
  optAddCaller : bool;
  loggerName : string
}.

(** [atomic.Value]: empty until the first [Store]. *)
Record atomicLogger := mkAtomic { innerLoggerPtr : option SugaredLogger }.

Record loggerInfo := mkInfo {
  levelEnabler : option LevelEnabler;
  infoAtomicLogger : atomicLogger
}.

(** A [*loggerInfo] is an index into [infos], the store of the allocated
    [loggerInfo] structs; [&info.atomicLogger] is the same index. *)
Abbreviation ptr := nat (only parsing).

Record Factory := mkFactory {
  defaultLevel : Level;
  encoder : option Encoder;
  out : option Writer;
  loggers : gmap string ptr;
  addCaller : bool;
  infos : list loggerInfo
}.

Definition withDefaultLevel (r : Factory) (l : Level) : Factory :=
  mkFactory l (encoder r) (out r) (loggers r) (addCaller r) (infos r).
Definition withEncoder (r : Factory) (e : option Encoder) : Factory :=
  mkFactory (defaultLevel r) e (out r) (loggers r) (addCaller r) (infos r).
Definition withOut (r : Factory) (w : option Writer) : Factory :=
  mkFactory (defaultLevel r) (encoder r) w (loggers r) (addCaller r) (infos r).
Definition withLoggers (r : Factory) (m : gmap string ptr) : Factory :=
  mkFactory (defaultLevel r) (encoder r) (out r) m (addCaller r) (infos r).
Definition withAddCaller (r : Factory) (b : bool) : Factory :=
  mkFactory (defaultLevel r) (encoder r) (out r) (loggers r) b (infos r).
Definition withInfos (r : Factory) (h : list loggerInfo) : Factory :=
  mkFactory (defaultLevel r) (encoder r) (out r) (loggers r) (addCaller r) h.

(** [af.set(logger)] and [af.get()]; [get] on an empty [atomic.Value]
    panics, which is [None] here. *)
Definition set (_ : atomicLogger) (lg : SugaredLogger) : atomicLogger :=
  mkAtomic (Some lg).
Definition get (af : atomicLogger) : option SugaredLogger := innerLoggerPtr af.

(** [info.atomicLogger.set(lg)] and [info.levelEnabler = e] through the
    pointer [p]. *)
Definition storeLogger (p : ptr) (lg : loggerInfo → SugaredLogger) (h : list loggerInfo)
  : list loggerInfo :=
  alter (λ info, mkInfo (levelEnabler info) (set (infoAtomicLogger info) (lg info))) p h.
Definition storeEnabler (p : ptr) (e : LevelEnabler) (h : list loggerInfo)
  : list loggerInfo :=
  alter (λ info, mkInfo (Some e) (infoAtomicLogger info)) p h.

Section FactoryOps.
Context `{Env}.

(** [SetDefaultLevel] stores into the [AtomicLevel] cell. *)
Definition SetDefaultLevel (r : Factory) (l : Level) : Factory :=
  withDefaultLevel r l.

(** [zap.NewAtomicLevel()] starts at zap's info level, which is 0. *)
Definition NewFactory : Factory :=
  SetDefaultLevel (mkFactory 0%Z None None ∅ false []) OffLevel.

Definition getEncoder (r : Factory) : Encoder :=
  match encoder r with
  | None => NewLTSVEncoder NewEncoderConfig
  | Some e => e
  end.

Definition getOut (r : Factory) : Writer :=
  match out r with
  | None => Stdout
  | Some w => w
  end.

Definition newLogger (r : Factory) (name : string) (info : loggerInfo) : SugaredLogger :=
  let l := match levelEnabler info with
           | Some e => e
           | None => AtomicDefault
           end in
  mkSugared (getEncoder r) (getOut r) l (addCaller r) name.

(** One turn of the loop of [refreshLoggers]. *)
Definition refreshOne (r : Factory) (entry : string * ptr) : Factory :=
  withInfos r (storeLogger entry.2 (newLogger r entry.1) (infos r)).

Definition refreshLoggers (r : Factory) : Factory :=
  foldl refreshOne r (range (loggers r)).

(** [getLoggerInfo]: the entry of [name], allocated and published when the
    map has none. *)
Definition getLoggerInfo (r : Factory) (name : string) : Factory * ptr :=
  match loggers r !! name with
  | Some p => (r, p)
  | None =>
      let p := length (infos r) in
      let info := mkInfo None (mkAtomic None) in
      let r1 := withInfos (withLoggers r (<[name := p]> (loggers r))) (infos r ++ [info]) in
      (withInfos r1 (storeLogger p (newLogger r1 name) (infos r1)), p)
  end.

Definition setLevel (r : Factory) (name : string) (l : Level) : Factory :=
  let '(r1, p) := getLoggerInfo r name in
  withInfos r1 (storeEnabler p (ConstLevel l) (infos r1)).

Definition SetLevel (r : Factory) (name : string) (l : Level) : Factory :=
  refreshLoggers (setLevel r name l).

Definition SetEncoder (r : Factory) (e : option Encoder) : Factory :=
  refreshLoggers (withEncoder r e).

Definition SetAddCaller (r : Factory) (b : bool) : Factory :=
  refreshLoggers (withAddCaller r b).

(** The closure that [SetOut] returns captures [prior]; calling it runs
    [r.SetOut(prior)] and drops the closure that this inner call returns. *)
Inductive restorer := RestoreOut (prior : option Writer).

Definition SetOut (r : Factory) (w : option Writer) : Factory * restorer :=
  let prior := out r in
  (refreshLoggers (withOut r w), RestoreOut prior).

Definition call (fn : restorer) (r : Factory) : Factory :=
  match fn with
  | RestoreOut prior => (SetOut r prior).1
  end.

(** [LevelsString], loop by loop.  The first loop fills [levelMap] and
    collects the messages in the order of the iteration. *)
Definition levelsStep (acc : gmap string Level * list string) (kv : string * setting)
  : gmap string Level * list string :=
  match kv.2 with
  | SBool true => (<[kv.1 := AllLevel]> acc.1, acc.2)
  | SBool false => (<[kv.1 := OffLevel]> acc.1, acc.2)
  | SString t =>
      let '(l, err) := levelForAbbr t in
      (<[kv.1 := l]> acc.1,
       match err with
       | Some msg => acc.2 ++ [msg]
       | None => acc.2
       end)
  end.

(** The second loop: an existing logger that the level map does not name
    gets the factory's [AtomicLevel] as its enabler. *)
Definition resetStep (levelMap : gmap string Level) (r : Factory) (entry : string * ptr)
  : Factory :=
  match levelMap !! entry.1 with
  | Some _ => r
  | None => withInfos r (storeEnabler entry.2 AtomicDefault (infos r))
  end.

Definition LevelsString (r : Factory) (s : string) : Factory * error :=
  let m := parseConfigString s in
  let '(levelMap0, errMsgs) := foldl levelsStep (∅, []) (range m) in
  let '(r1, levelMap) :=
    match levelMap0 !! "*" with
    | Some d => (SetDefaultLevel r d, delete "*" levelMap0)
    | None => (r, levelMap0)
    end in
  let r2 := foldl (resetStep levelMap) r1 (range (loggers r1)) in
  let r3 := foldl (λ r' kv, setLevel r' kv.1 kv.2) r2 (range levelMap) in
  if (0 <? length errMsgs)%nat then
    (r3, Some ("errors parsing config string: " +:+ Join errMsgs ", "))
  else (refreshLoggers r3, None).

Definition Configure (r : Factory) (cfg : Config) : Factory * error :=
  let r1 := SetDefaultLevel r (DefaultLevel cfg) in
  let encCfg0 :=
    match cfgEncoderConfig cfg with
    | Some c => c
    | None => if Development cfg then NewDevelopmentEncoderConfig else NewEncoderConfig
    end in
  let encCfg1 :=
    match EncodeCaller encCfg0 with
    | None => mkEncoderConfig (Some ShortCallerEncoder) (EncodeLevel encCfg0) (otherKeys encCfg0)
    | Some _ => encCfg0
    end in
  let encCfg :=
    match EncodeLevel encCfg1 with
    | None => mkEncoderConfig (EncodeCaller encCfg1) (Some AbbrLevelEncoder) (otherKeys encCfg1)
    | Some _ => encCfg1
    end in
  let enc :=
    if one_of (Encoding cfg) ["json"] then Some (NewJSONEncoder encCfg)
    else if one_of (Encoding cfg) ["ltsv"] then Some (NewLTSVEncoder encCfg)
    else if one_of (Encoding cfg) ["term"] then Some (NewConsoleEncoder encCfg)
    else if one_of (Encoding cfg) ["term-color"] then Some (NewColorizedConsoleEncoder encCfg)
    else if one_of (Encoding cfg) ["console"] then Some (zapNewConsoleEncoder encCfg)
    else if one_of (Encoding cfg) [""] then
      Some (if Development cfg then NewColorizedConsoleEncoder encCfg
            else NewLTSVEncoder encCfg)
    else None in
  match enc with
  | None =>
      (r1, Some (Encoding cfg +:+
                 " is not a valid encoding, must be one of: json, ltsv, term, or term-color"))
  | Some e =>
      let b := match AddCaller cfg with
               | Some b => b
               | None => Development cfg
               end in
      let r2 := (LevelsString r1 (Levels cfg)).1 in
      (refreshLoggers (withAddCaller (withEncoder r2 (Some e)) b), None)
  end.

End FactoryOps.

(** ** The facade: [logger], its context slice, and the log methods

    The arguments of a log call are [interface{}] values: a
    [zapcore.Field] or anything else.  [zap.Any("", v)] is the field with
    the empty key that holds [v]. *)

Inductive Value :=
| VString (s : string)
| VInt (z : Z)
| VError (msg : string)
| VNil.

Inductive Arg :=
| Field (key : string) (v : Value)
| Bare (v : Value).

Definition Any (key : string) (v : Value) : Arg := Field key v.

(** A slice is a window on a backing array: the array (none for the [nil]
    slice), a length and a capacity.  [mem] is the store of the backing
    arrays; an array has as many cells as its capacity. *)
Record slice := mkSlice { arr : option nat; len : nat; cap : nat }.

Definition nilSlice : slice := mkSlice None 0 0.

Abbreviation mem := (list (list Arg)) (only parsing).

(** The elements that a slice shows. *)
Definition elems (m : mem) (s : slice) : list Arg :=
  match arr s with
  | None => []
  | Some a => take (len s) (default [] (m !! a))
  end.

Record logger := mkLogger {
  loggerAtomic : ptr;
  context : slice
}.

Inductive zapMethod := Debugw | Infow | Warnw | Errorw | Panicw.

(** What a log method hands to zap: the published instance it called, the
    method, the message and the keys and values. *)
Record zapCall := mkCall {
  callee : SugaredLogger;
  method : zapMethod;
  message : string;
  keysAndValues : list Arg
}.

(** The level a built instance lets through: its constant, or the current
    content of the factory's [AtomicLevel]. *)
Definition effectiveLevel (r : Factory) (lg : SugaredLogger) : Level :=
  match coreEnabler lg with
  | ConstLevel l => l
  | AtomicDefault => defaultLevel r
  end.

Section Facade.
Context `{Env}.

(** Go's [append(s, xs...)]: nothing to add returns [s]; room in the
    backing array means the cells after [len s] are overwritten in place;
    otherwise a new array is allocated and filled. *)
Definition append (m : mem) (s : slice) (xs : list Arg) : mem * slice :=
  let n := (len s + length xs)%nat in
  if (length xs =? 0)%nat then (m, s)
  else if (n <=? cap s)%nat then
    match arr s with
    | Some a => (alter (λ cells, take (len s) cells ++ xs ++ drop n cells) a m,
                 mkSlice (Some a) n (cap s))
    | None => (m, s)
    end
  else
    let c := growslice (cap s) n in
    (m ++ [elems m s ++ xs ++ replicate (c - n) (Bare VNil)],
     mkSlice (Some (length m)) n c).

(** [normalizeArgs]; the source overwrites [args[0]] in the caller's
    array, the model returns the resulting sequence. *)
Definition normalizeArgs (args : list Arg) : list Arg :=
  match args with
  | [Field _ _] => args
  | [Bare v] => [Any "" v]
  | _ => args
  end.

Definition clone (m : mem) (l : logger) : mem * logger :=
  if (0 <? len (context l))%nat then
    let '(m1, c) := append m nilSlice (elems m (context l)) in
    (m1, mkLogger (loggerAtomic l) c)
  else (m, mkLogger (loggerAtomic l) nilSlice).

Definition With (m : mem) (l : logger) (args : list Arg) : mem * logger :=
  let '(m1, l2) := clone m l in
  let args := normalizeArgs args in
  match length args with
  | O => (m1, l2)
  | _ => let '(m2, c) := append m1 (context l2) args in
         (m2, mkLogger (loggerAtomic l2) c)
  end.

(** [l.get()] through the embedded [*atomicLogger]. *)
Definition loggerGet (r : Factory) (l : logger) : option SugaredLogger :=
  info ← infos r !! loggerAtomic l; get (infoAtomicLogger info).

(** The body shared by the six log methods; [l.get()] is evaluated before
    the arguments of the zap call. *)
Definition logw (zm : zapMethod) (r : Factory) (m : mem) (l : logger)
    (msg : string) (args : list Arg) : mem * option zapCall :=
  let args := normalizeArgs args in
  match loggerGet r l with
  | None => (m, None)
  | Some lg =>
      if (0 <? len (context l))%nat then
        let '(m1, s) := append m (context l) args in
        (m1, Some (mkCall lg zm msg (elems m1 s)))
      else (m, Some (mkCall lg zm msg args))
  end.

(** [Panicw] panics once the record is written; the model stops at the
    call. *)
Definition Trace := logw Debugw.
Definition Debug := logw Debugw.
Definition Info := logw Infow.
Definition Warn := logw Warnw.
Definition Error := logw Errorw.
Definition Fatal := logw Panicw.

Definition NewDeprecatedLogger (r : Factory) (name : string) : Factory * logger :=
  let '(r1, p) := getLoggerInfo r name in
  (r1, mkLogger p nilSlice).

Definition NewLogger (r : Factory) (name : string) : Factory * logger :=
  NewDeprecatedLogger r name.

End Facade.

(** ** Notions used to state the properties *)

Section Notions.
Context `{Env}.

(** The loops over [r.loggers] all have the shape "for each entry, update
    the struct behind its pointer". *)
Definition alterAll (f : string → loggerInfo → loggerInfo)
    (h : list loggerInfo) (l : list (string * ptr)) : list loggerInfo :=
  foldl (λ h e, alter (f e.1) e.2 h) h l.

(** Well-formed registries: the pointers of the map are allocated and no
    two names share one.  Every registry built by the operations is. *)
Definition wf (r : Factory) : Prop :=
  (∀ n p, loggers r !! n = Some p → p < length (infos r)) ∧
  (∀ n1 n2 p, loggers r !! n1 = Some p → loggers r !! n2 = Some p → n1 = n2).

(** What [refreshLoggers] stores in an entry. *)
Definition republish (r : Factory) (n : string) (info : loggerInfo) : loggerInfo :=
  mkInfo (levelEnabler info) (set (infoAtomicLogger info) (newLogger r n info)).

(** [r'] still maps every name of [r] to the pointer it had. *)
Definition extends (r r' : Factory) : Prop :=
  ∀ n p, loggers r !! n = Some p → loggers r' !! n = Some p.

(** The level and the note that the first loop derives from one value of
    the parsed map. *)
Definition levelOf (v : setting) : Level :=
  match v with
  | SBool true => AllLevel
  | SBool false => OffLevel
  | SString t => (levelForAbbr t).1
  end.

Definition noteOf (kv : string * setting) : option string :=
  match kv.2 with
  | SBool _ => None
  | SString t => (levelForAbbr t).2
  end.

(** What the second loop stores in an entry. *)
Definition resetTo (levelMap : gmap string Level) (n : string) (info : loggerInfo)
  : loggerInfo :=
  match levelMap !! n with
  | Some _ => info
  | None => mkInfo (Some AtomicDefault) (infoAtomicLogger info)
  end.

Definition resetAll (levelMap : gmap string Level) (r : Factory) : Factory :=
  withInfos r (alterAll (resetTo levelMap) (infos r) (range (loggers r))).

Definition setAll (r : Factory) (l : list (string * Level)) : Factory :=
  foldl (λ r' kv, setLevel r' kv.1 kv.2) r l.

(** The registry entry of a name: the struct behind the pointer that the
    map holds for it. *)
Definition entry (r : Factory) (n : string) : option loggerInfo :=
  p ← loggers r !! n; infos r !! p.

(** The settings a built instance depends on. *)
Definition sameSettings (r r' : Factory) : Prop :=
  defaultLevel r' = defaultLevel r ∧ encoder r' = encoder r ∧
  out r' = out r ∧ addCaller r' = addCaller r.

(** The handle of an entry that [getLoggerInfo] has to create. *)
Definition freshAtomic (r : Factory) (n : string) : atomicLogger :=
  mkAtomic (Some (newLogger r n (mkInfo None (mkAtomic None)))).

(** A slice is valid in a store when its backing array is allocated with
    exactly [cap] cells and the window fits; the [nil] slice has no array
    and no room. *)
Definition wfSlice (m : mem) (s : slice) : Prop :=
  match arr s with
  | None => len s = 0 ∧ cap s = 0
  | Some a => ∃ cells, m !! a = Some cells ∧ length cells = cap s ∧ len s ≤ cap s
  end.

(** A slice allocated by the operation at hand: its array, if any, lies
    beyond the store [m] the operation started from. *)
Definition freshIn (m : mem) (s : slice) : Prop :=
  match arr s with
  | None => True
  | Some a => length m ≤ a
  end.

(** The administrative operations of a factory, as data, and a run of
    them. *)
Inductive adminOp :=
| OpNewLogger (name : string)
| OpSetLevel (name : string) (l : Level)
| OpSetDefaultLevel (l : Level)
| OpSetEncoder (e : option Encoder)
| OpSetOut (w : option Writer)
| OpSetAddCaller (b : bool)
| OpLevelsString (s : string)
| OpConfigure (cfg : Config)
| OpCall (fn : restorer).

Definition run (op : adminOp) (r : Factory) : Factory :=
  match op with
  | OpNewLogger name => (NewLogger r name).1
  | OpSetLevel name l => SetLevel r name l
  | OpSetDefaultLevel l => SetDefaultLevel r l
  | OpSetEncoder e => SetEncoder r e
  | OpSetOut w => (SetOut r w).1
  | OpSetAddCaller b => SetAddCaller r b
  | OpLevelsString s => (LevelsString r s).1
  | OpConfigure cfg => (Configure r cfg).1
  | OpCall fn => call fn r
  end.

Definition runAll (ops : list adminOp) (r : Factory) : Factory :=
  foldl (λ r' op, run op r') r ops.

(** The operations that end in an unconditional [refreshLoggers]. *)
Definition rebuilds (op : adminOp) : bool :=
  match op with
  | OpSetLevel _ _ | OpSetEncoder _ | OpSetOut _ | OpSetAddCaller _ | OpCall _ => true
  | _ => false
  end.

(** The six log methods of the facade and the zap method each one calls. *)
Inductive logMethod := MTrace | MDebug | MInfo | MWarn | MError | MFatal.

Definition invoke (mt : logMethod)
  : Factory → mem → logger → string → list Arg → mem * option zapCall :=
  match mt with
  | MTrace => Trace
  | MDebug => Debug
  | MInfo => Info
  | MWarn => Warn
  | MError => Error
  | MFatal => Fatal
  end.

Definition zapOf (mt : logMethod) : zapMethod :=
  match mt with
  | MTrace | MDebug => Debugw
  | MInfo => Infow
  | MWarn => Warnw
  | MError => Errorw
  | MFatal => Panicw
  end.

(** Modelled from the spec: the declaration of the level constants is not
    in the source.  Section 3 of the spec lists the severities OFF, ERROR,
    INFO, DEBUG and ALL, with WARN a deprecated alias of INFO, and section
    4.4 maps the legacy panic and fatal abbreviations onto the ERROR
    severity.  [severityOf] records which severity of the spec each
    constant of the code stands for. *)
Inductive Severity := OFF | ERROR | INFO | DEBUG | ALL.

Definition severityOf (l : Level) (s : Severity) : Prop :=
  match s with
  | OFF => l = OffLevel
  | ERROR => l = ErrorLevel ∨ l = PanicLevel
  | INFO => l = InfoLevel ∨ l = WarnLevel
  | DEBUG => l = DebugLevel
  | ALL => l = AllLevel
  end.

(** The case labels of the switch of [levelForAbbr]. *)
Definition knownAbbrs : list string :=
  [""; "off"; "trc"; "trace"; "dbg"; "debug"; "inf"; "info"; "wrn"; "warn";
   "err"; "error"; "pan"; "panic"; "ftl"; "fatal"].

(** The encoding names that the switch of [Configure] accepts. *)
Definition knownEncodings : list string :=
  ["json"; "ltsv"; "term"; "term-color"; "console"; ""].

(** The instance published for a name is the one [newLogger] builds from
    the current settings and the entry's enabler. *)
Definition published (r : Factory) (n : string) : Prop :=
  ∃ info, entry r n = Some info ∧
          get (infoAtomicLogger info) = Some (newLogger r n info).

(** [LevelsString] by parts: the level map and the notes of a level
    string, and the registry as the three loops leave it, before the check
    of the notes. *)
Definition levelsOf (s : string) : gmap string Level :=
  levelOf <$> parseConfigString s.

Definition notesOf (s : string) : list string :=
  omap noteOf (range (parseConfigString s)).

Definition beforeRefresh (r : Factory) (s : string) : Factory :=
  let r1 := match levelsOf s !! "*" with
            | Some d => SetDefaultLevel r d
            | None => r
            end in
  setAll (resetAll (delete "*" (levelsOf s)) r1) (range (delete "*" (levelsOf s))).

(** ** The level queries of the facade

    [l.get().Desugar().Core().Enabled(lvl)] asks the enabler of the core:
    zap's [Level.Enabled] and [AtomicLevel.Enabled] both answer
    [lvl >= level].  [zap.DebugLevel], [zap.InfoLevel] and [zap.WarnLevel]
    are -1, 0 and 1. *)
Definition zapDebugLevel : Level := (-1)%Z.
Definition zapInfoLevel : Level := 0%Z.
Definition zapWarnLevel : Level := 1%Z.

Definition Enabled (r : Factory) (lg : SugaredLogger) (lvl : Level) : bool :=
  (effectiveLevel r lg <=? lvl)%Z.

Definition IsDebug (r : Factory) (l : logger) : option bool :=
  lg ← loggerGet r l; Some (Enabled r lg zapDebugLevel).
Definition IsInfo (r : Factory) (l : logger) : option bool :=
  lg ← loggerGet r l; Some (Enabled r lg zapInfoLevel).
Definition IsTrace (r : Factory) (l : logger) : option bool :=
  lg ← loggerGet r l; Some (Enabled r lg zapDebugLevel).
Definition IsWarn (r : Factory) (l : logger) : option bool :=
  lg ← loggerGet r l; Some (Enabled r lg zapWarnLevel).

(** Every allocated [loggerInfo] has an instance in its handle. *)
Definition populated (r : Factory) : Prop :=
  Forall (λ info, is_Some (get (infoAtomicLogger info))) (infos r).

(** The abbreviations for which [levelForAbbr] returns no note. *)
Definition cleanAbbrs : list string :=
  [""; "off"; "dbg"; "debug"; "inf"; "info"; "err"; "error"].

(** [r'] has the allocated structs of [r] and possibly more, and its
    handles are filled if those of [r] are. *)
Definition keeps (r r' : Factory) : Prop :=
  (populated r → populated r') ∧ length (infos r) ≤ length (infos r').

(** The instance published for a name carries that name. *)
Definition named (r : Factory) : Prop :=
  ∀ n info lg, entry r n = Some info → get (infoAtomicLogger info) = Some lg →
               loggerName lg = n.

(** [strings.Count(s, sep)] for a one-byte separator. *)
Fixpoint Count (s : string) (sep : ascii) : nat :=
  match s with
  | EmptyString => 0
  | String a rest => (if Ascii.eqb a sep then 1 else 0) + Count rest sep
  end.

(** A program's facades side by side: the store of backing arrays and the
    facades obtained so far.  [FWith i args] derives a facade from the
    [i]-th one and keeps it; [FLog i mt msg args] calls a log method on the
    [i]-th one. *)
Inductive facadeOp :=
| FWith (i : nat) (args : list Arg)
| FLog (i : nat) (mt : logMethod) (msg : string) (args : list Arg).

Definition facadeStep (r : Factory) (w : mem * list logger) (op : facadeOp)
  : mem * list logger :=
  match op with
  | FWith i args =>
      match w.2 !! i with
      | Some l => ((With w.1 l args).1, w.2 ++ [(With w.1 l args).2])
      | None => w
      end
  | FLog i mt msg args =>
      match w.2 !! i with
      | Some l => ((invoke mt r w.1 l msg args).1, w.2)
      | None => w
      end
  end.

(** The contexts of the facades are valid and no two facades share a
    backing array. *)
Definition contextsApart (w : mem * list logger) : Prop :=
  Forall (λ l, wfSlice w.1 (context l)) w.2 ∧
  ∀ i j li lj a, i ≠ j → w.2 !! i = Some li → w.2 !! j = Some lj →
                 arr (context li) = Some a → arr (context lj) ≠ Some a.



End Notions.

(** A sample assignment of the parameters, used to run the model on
    concrete inputs: distinct level numbers, the byte-wise lowering, the
    key order of [map_to_list], and doubling growth. *)
#[local] Instance sample_env : Env := {|
  AllLevel := (-128)%Z; DebugLevel := (-1)%Z; InfoLevel := 0%Z; WarnLevel := 1%Z;
  ErrorLevel := 2%Z; PanicLevel := 4%Z; OffLevel := 127%Z;
  NewEncoderConfig := mkEncoderConfig None None 0;
  NewDevelopmentEncoderConfig := mkEncoderConfig None None 1;
  ToLower := lower_bytes;
  ToLower_ascii := λ s _, eq_refl;
  range := λ A m, map_to_list m;
  range_perm := λ A m, reflexivity (R := (≡ₚ)) (map_to_list m);
  growslice := λ oldcap needed, Nat.max needed (2 * oldcap);
  growslice_fits := λ oldcap needed, Nat.le_max_l needed (2 * oldcap)
|}.


(** * Properties *)

(** ** Loops that store through the pointers of the map *)

Section Loops.
Context `{Env}.

Lemma alterAll_length f l h : length (alterAll f h l) = length h.
Proof.
  revert h. induction l as [|e l IH]; intros h; simpl; [done|].
  unfold alterAll in *. simpl. rewrite IH. apply length_alter.
Qed.

Lemma alterAll_lookup_notin f l h p :
  p ∉ l.*2 → alterAll f h l !! p = h !! p.
Proof.
  revert h. induction l as [|e l IH]; intros h Hp; [done|].
  rewrite fmap_cons in Hp. apply not_elem_of_cons in Hp as [Hne Hp].
  unfold alterAll in *. simpl. rewrite IH by done.
  by apply list_lookup_alter_ne.
Qed.

Lemma alterAll_lookup_in f l h n p :
  NoDup l.*2 → (n, p) ∈ l → alterAll f h l !! p = f n <$> h !! p.
Proof.
  revert h. induction l as [|e l IH]; intros h Hnd Hin.
  { by apply elem_of_nil in Hin. }
  rewrite fmap_cons in Hnd. apply NoDup_cons in Hnd as [Hhd Hnd].
  apply elem_of_cons in Hin as [<-|Hin]; unfold alterAll in *; simpl.
  - fold (alterAll f (alter (f n) p h) l).
    rewrite alterAll_lookup_notin by done. apply list_lookup_alter_eq.
  - rewrite IH by done. rewrite list_lookup_alter_ne; [done|].
    intros Heq. apply Hhd. rewrite Heq. by apply (list_elem_of_fmap_2 snd) in Hin.
Qed.

Lemma NoDup_fmap_inj_on {A B} (f : A → B) (l : list A) :
  NoDup l → (∀ x y, x ∈ l → y ∈ l → f x = f y → x = y) → NoDup (f <$> l).
Proof.
  induction 1 as [|x l Hx Hnd IH]; intros Hinj; [constructor|].
  rewrite fmap_cons. constructor.
  - intros (y & Hxy & Hy)%list_elem_of_fmap.
    apply Hx. rewrite (Hinj x y); [done|set_solver..].
  - apply IH. intros a b Ha Hb. apply Hinj; set_solver.
Qed.

Lemma range_elem {A} (m : gmap string A) k v :
  (k, v) ∈ range m ↔ m !! k = Some v.
Proof. rewrite range_perm. apply elem_of_map_to_list. Qed.

Lemma range_NoDup_fst {A} (m : gmap string A) : NoDup (range m).*1.
Proof. rewrite range_perm. apply NoDup_fst_map_to_list. Qed.

Lemma range_NoDup_ptrs r : wf r → NoDup (range (loggers r)).*2.
Proof.
  intros [_ Hinj]. rewrite range_perm. apply NoDup_fmap_inj_on.
  - apply NoDup_map_to_list.
  - intros [n1 p1] [n2 p2] H1%elem_of_map_to_list H2%elem_of_map_to_list.
    simpl. intros <-. f_equal. eauto.
Qed.

Lemma withInfos_id r : withInfos r (infos r) = r.
Proof. by destruct r. Qed.

Lemma refresh_fold r l h :
  foldl refreshOne (withInfos r h) l = withInfos r (alterAll (republish r) h l).
Proof.
  revert h. induction l as [|e l IH]; intros h; [done|].
  simpl. apply (IH (alter (republish r e.1) e.2 h)).
Qed.

Lemma refreshLoggers_eq r :
  refreshLoggers r = withInfos r (alterAll (republish r) (infos r) (range (loggers r))).
Proof.
  unfold refreshLoggers. rewrite <- (withInfos_id r) at 1. apply refresh_fold.
Qed.

Lemma refreshLoggers_loggers r : loggers (refreshLoggers r) = loggers r.
Proof. by rewrite refreshLoggers_eq. Qed.

Lemma refreshLoggers_lookup r n p :
  wf r → loggers r !! n = Some p →
  infos (refreshLoggers r) !! p = republish r n <$> infos r !! p.
Proof.
  intros Hwf Hn. rewrite refreshLoggers_eq. simpl.
  apply alterAll_lookup_in; [by apply range_NoDup_ptrs|by apply range_elem].
Qed.

Lemma refreshLoggers_length r : length (infos (refreshLoggers r)) = length (infos r).
Proof. rewrite refreshLoggers_eq. apply alterAll_length. Qed.

End Loops.

(** ** The registry invariant and what the operations keep *)

Section Invariant.
Context `{Env}.

Lemma extends_refl r : extends r r.
Proof. by intros n p. Qed.

Lemma extends_trans r1 r2 r3 : extends r1 r2 → extends r2 r3 → extends r1 r3.
Proof. intros H12 H23 n p Hn. eauto. Qed.

Lemma extends_same r r' : loggers r' = loggers r → extends r r'.
Proof. intros Heq n p. by rewrite Heq. Qed.

Lemma wf_same r r' :
  loggers r' = loggers r → length (infos r') = length (infos r) → wf r → wf r'.
Proof. intros Hl Hi [Hv Hinj]. split; rewrite Hl, ?Hi; eauto. Qed.

Lemma wf_NewFactory : wf NewFactory.
Proof. split; intros *; simpl; by rewrite lookup_empty. Qed.

Lemma foldl_preserves {A B} (P : A → Prop) (f : A → B → A) (l : list B) a :
  (∀ a b, P a → P (f a b)) → P a → P (foldl f a l).
Proof. intros Hstep. revert a. induction l; simpl; eauto. Qed.

Lemma wf_refreshLoggers r : wf r → wf (refreshLoggers r).
Proof. apply wf_same; [apply refreshLoggers_loggers|apply refreshLoggers_length]. Qed.

Lemma getLoggerInfo_found r name p :
  loggers r !! name = Some p → getLoggerInfo r name = (r, p).
Proof. unfold getLoggerInfo. by intros ->. Qed.

Lemma getLoggerInfo_loggers r name :
  loggers (getLoggerInfo r name).1 = <[name := (getLoggerInfo r name).2]> (loggers r).
Proof.
  unfold getLoggerInfo. destruct (loggers r !! name) as [p|] eqn:Hn; simpl; [|done].
  by rewrite insert_id.
Qed.

Lemma getLoggerInfo_lookup r name :
  loggers (getLoggerInfo r name).1 !! name = Some (getLoggerInfo r name).2.
Proof. rewrite getLoggerInfo_loggers. apply lookup_insert_eq. Qed.

Lemma getLoggerInfo_extends r name : extends r (getLoggerInfo r name).1.
Proof.
  intros n p Hn. rewrite getLoggerInfo_loggers.
  destruct (decide (name = n)) as [<-|Hne]; [|by rewrite lookup_insert_ne].
  rewrite lookup_insert_eq. unfold getLoggerInfo. by rewrite Hn.
Qed.

Lemma getLoggerInfo_fresh_infos r name :
  loggers r !! name = None →
  infos (getLoggerInfo r name).1 =
    infos r ++ [mkInfo None (mkAtomic (Some (newLogger r name (mkInfo None (mkAtomic None)))))] ∧
  (getLoggerInfo r name).2 = length (infos r).
Proof.
  intros Hn. unfold getLoggerInfo. rewrite Hn. simpl. split; [|done].
  unfold storeLogger. apply list_eq. intros i.
  destruct (decide (i = length (infos r))) as [->|Hne].
  - rewrite list_lookup_alter_eq, !lookup_app_r, Nat.sub_diag by done. done.
  - rewrite list_lookup_alter_ne by done.
    destruct (decide (i < length (infos r))).
    + by rewrite !lookup_app_l.
    + rewrite !lookup_ge_None_2; [done|rewrite length_app; simpl; lia..].
Qed.

Lemma getLoggerInfo_length r name :
  length (infos r) ≤ length (infos (getLoggerInfo r name).1).
Proof.
  destruct (loggers r !! name) as [p|] eqn:Hn.
  - by rewrite (getLoggerInfo_found _ _ _ Hn).
  - destruct (getLoggerInfo_fresh_infos _ _ Hn) as [-> _].
    rewrite length_app. lia.
Qed.

Lemma getLoggerInfo_old r name p :
  p < length (infos r) → infos (getLoggerInfo r name).1 !! p = infos r !! p.
Proof.
  intros Hp. destruct (loggers r !! name) as [q|] eqn:Hn.
  - by rewrite (getLoggerInfo_found _ _ _ Hn).
  - destruct (getLoggerInfo_fresh_infos _ _ Hn) as [-> _].
    by rewrite lookup_app_l.
Qed.

Lemma wf_getLoggerInfo r name : wf r → wf (getLoggerInfo r name).1.
Proof.
  intros Hwf. destruct (loggers r !! name) as [q|] eqn:Hn.
  { by rewrite (getLoggerInfo_found _ _ _ Hn). }
  destruct Hwf as [Hv Hinj].
  pose proof (getLoggerInfo_loggers r name) as Hl.
  destruct (getLoggerInfo_fresh_infos _ _ Hn) as [Hi Hp].
  rewrite Hp in Hl. split; rewrite Hl, ?Hi, ?length_app; simpl.
  - intros n p. rewrite lookup_insert. case_decide; [intros [= <-]; lia|].
    intros Hp'%Hv. lia.
  - intros n1 n2 p. rewrite !lookup_insert.
    repeat case_decide; subst; try done.
    + intros [= <-] Hlt%Hv. lia.
    + intros Hlt%Hv [= <-]. lia.
    + eauto.
Qed.

Lemma getLoggerInfo_settings r name :
  let r' := (getLoggerInfo r name).1 in
  defaultLevel r' = defaultLevel r ∧ encoder r' = encoder r ∧
  out r' = out r ∧ addCaller r' = addCaller r.
Proof. unfold getLoggerInfo. by destruct (loggers r !! name). Qed.

Lemma setLevel_unfold r name l :
  setLevel r name l =
    withInfos (getLoggerInfo r name).1
      (storeEnabler (getLoggerInfo r name).2 (ConstLevel l) (infos (getLoggerInfo r name).1)).
Proof. unfold setLevel. by destruct (getLoggerInfo r name). Qed.

Lemma wf_setLevel r name l : wf r → wf (setLevel r name l).
Proof.
  intros Hwf. rewrite setLevel_unfold.
  apply (wf_same (getLoggerInfo r name).1); [done| |by apply wf_getLoggerInfo].
  simpl. apply length_alter.
Qed.

Lemma setLevel_extends r name l : extends r (setLevel r name l).
Proof.
  rewrite setLevel_unfold.
  eapply extends_trans; [apply getLoggerInfo_extends|by apply extends_same].
Qed.

Lemma setLevel_settings r name l :
  let r' := setLevel r name l in
  defaultLevel r' = defaultLevel r ∧ encoder r' = encoder r ∧
  out r' = out r ∧ addCaller r' = addCaller r.
Proof. rewrite setLevel_unfold. simpl. apply getLoggerInfo_settings. Qed.

End Invariant.

(** ** The three loops of [LevelsString] *)

Section LevelsLoops.
Context `{Env}.

Lemma levelsStep_eq acc kv :
  levelsStep acc kv =
    (<[kv.1 := levelOf kv.2]> acc.1, acc.2 ++ option_list (noteOf kv)).
Proof.
  unfold levelsStep, levelOf, noteOf. destruct kv as [k [[|]|t]]; simpl.
  - by rewrite app_nil_r.
  - by rewrite app_nil_r.
  - destruct (levelForAbbr t) as [l [msg|]]; simpl; [done|by rewrite app_nil_r].
Qed.

Lemma levels_fold_notes l acc :
  (foldl levelsStep acc l).2 = acc.2 ++ omap noteOf l.
Proof.
  revert acc. induction l as [|kv l IH]; intros acc; simpl.
  { by rewrite app_nil_r. }
  rewrite IH, levelsStep_eq. simpl.
  rewrite <- app_assoc. f_equal. by destruct (noteOf kv).
Qed.

Lemma levels_fold_notin l acc k :
  k ∉ l.*1 → (foldl levelsStep acc l).1 !! k = acc.1 !! k.
Proof.
  revert acc. induction l as [|kv l IH]; intros acc Hk; [done|].
  rewrite fmap_cons in Hk. apply not_elem_of_cons in Hk as [Hne Hk].
  simpl. rewrite IH by done. rewrite levelsStep_eq. simpl.
  by rewrite lookup_insert_ne.
Qed.

Lemma levels_fold_in l acc k v :
  NoDup l.*1 → (k, v) ∈ l → (foldl levelsStep acc l).1 !! k = Some (levelOf v).
Proof.
  revert acc. induction l as [|kv l IH]; intros acc Hnd Hin.
  { by apply elem_of_nil in Hin. }
  rewrite fmap_cons in Hnd. apply NoDup_cons in Hnd as [Hhd Hnd].
  apply elem_of_cons in Hin as [<-|Hin]; simpl.
  - rewrite levels_fold_notin by done. rewrite levelsStep_eq. simpl.
    apply lookup_insert_eq.
  - by apply IH.
Qed.

(** The level map of the first loop does not depend on the order of the
    iteration; the list of notes is the notes of the entries in that
    order. *)
Lemma levels_fold_range (m : gmap string setting) :
  foldl levelsStep (∅, []) (range m) = (levelOf <$> m, omap noteOf (range m)).
Proof.
  apply injective_projections; simpl; [|apply levels_fold_notes].
  apply map_eq. intros k. rewrite lookup_fmap.
  destruct (m !! k) as [v|] eqn:Hk; simpl.
  - apply levels_fold_in; [apply range_NoDup_fst|by apply range_elem].
  - rewrite levels_fold_notin; [done|].
    intros ([k' v] & -> & Hin%range_elem)%list_elem_of_fmap. simpl in *. congruence.
Qed.

Lemma reset_fold levelMap r l h :
  foldl (resetStep levelMap) (withInfos r h) l =
    withInfos r (alterAll (resetTo levelMap) h l).
Proof.
  revert h. induction l as [|e l IH]; intros h; [done|].
  simpl. rewrite <- IH. f_equal.
  unfold resetStep, resetTo. destruct (levelMap !! e.1); simpl; [|done].
  by rewrite list_alter_id.
Qed.

(** [LevelsString] with its loops named. *)
Lemma LevelsString_eq r s :
  LevelsString r s =
    let m := parseConfigString s in
    let levelMap0 := levelOf <$> m in
    let errMsgs := omap noteOf (range m) in
    let r1 := match levelMap0 !! "*" with
              | Some d => SetDefaultLevel r d
              | None => r
              end in
    let levelMap := delete "*" levelMap0 in
    let r3 := setAll (resetAll levelMap r1) (range levelMap) in
    if (0 <? length errMsgs)%nat then
      (r3, Some ("errors parsing config string: " +:+ Join errMsgs ", "))
    else (refreshLoggers r3, None).
Proof.
  unfold LevelsString. rewrite levels_fold_range. cbv zeta.
  destruct ((levelOf <$> parseConfigString s) !! "*") as [d|] eqn:Hd.
  - unfold setAll, resetAll.
    rewrite <- (reset_fold _ (SetDefaultLevel r d)), withInfos_id. done.
  - rewrite (delete_id _ _ Hd). unfold setAll, resetAll.
    rewrite <- (reset_fold _ r), withInfos_id. done.
Qed.

End LevelsLoops.

(** ** Entries by name *)

Section Entries.
Context `{Env}.

Lemma newLogger_sameSettings r r' n info :
  sameSettings r r' → newLogger r' n info = newLogger r n info.
Proof.
  intros (_ & He & Ho & Ha). unfold newLogger, getEncoder, getOut.
  by rewrite He, Ho, Ha.
Qed.

Lemma entry_refreshLoggers r n :
  wf r → entry (refreshLoggers r) n = republish r n <$> entry r n.
Proof.
  intros Hwf. unfold entry. rewrite refreshLoggers_loggers.
  destruct (loggers r !! n) as [p|] eqn:Hn; simpl; [|done].
  by apply refreshLoggers_lookup.
Qed.

Lemma entry_resetAll levelMap r n :
  wf r → entry (resetAll levelMap r) n = resetTo levelMap n <$> entry r n.
Proof.
  intros Hwf. unfold entry, resetAll. simpl.
  destruct (loggers r !! n) as [p|] eqn:Hn; simpl; [|done].
  apply alterAll_lookup_in; [by apply range_NoDup_ptrs|by apply range_elem].
Qed.

Lemma wf_resetAll levelMap r : wf r → wf (resetAll levelMap r).
Proof. apply wf_same; [done|apply alterAll_length]. Qed.

Lemma entry_is_Some r (n : string) (p : ptr) : wf r → loggers r !! n = Some p → is_Some (entry r n).
Proof.
  intros [Hv _] Hn. unfold entry. rewrite Hn. simpl.
  apply lookup_lt_is_Some. eauto.
Qed.

Lemma entry_getLoggerInfo_same r n :
  wf r →
  entry (getLoggerInfo r n).1 n =
    Some (default (mkInfo None (freshAtomic r n)) (entry r n)).
Proof.
  intros Hwf. unfold entry at 1. rewrite getLoggerInfo_lookup. simpl.
  destruct (loggers r !! n) as [p|] eqn:Hn.
  - rewrite (getLoggerInfo_found _ _ _ Hn). simpl.
    destruct (entry_is_Some _ _ _ Hwf Hn) as [i Hi]. rewrite Hi. simpl.
    unfold entry in Hi. by rewrite Hn in Hi.
  - destruct (getLoggerInfo_fresh_infos _ _ Hn) as [-> ->].
    rewrite lookup_app_r, Nat.sub_diag by done.
    unfold entry. by rewrite Hn.
Qed.

Lemma entry_getLoggerInfo_other r n n' :
  wf r → n ≠ n' → entry (getLoggerInfo r n').1 n = entry r n.
Proof.
  intros Hwf Hne. unfold entry.
  rewrite getLoggerInfo_loggers, lookup_insert_ne by done.
  destruct (loggers r !! n) as [p|] eqn:Hn; simpl; [|done].
  apply getLoggerInfo_old. destruct Hwf as [Hv _]. eauto.
Qed.

Lemma entry_setLevel_same r n l :
  wf r →
  entry (setLevel r n l) n =
    Some (mkInfo (Some (ConstLevel l))
            (infoAtomicLogger (default (mkInfo None (freshAtomic r n)) (entry r n)))).
Proof.
  intros Hwf. pose proof (entry_getLoggerInfo_same r n Hwf) as He.
  rewrite setLevel_unfold. unfold entry in *. simpl.
  rewrite getLoggerInfo_lookup in *. simpl in *.
  unfold storeEnabler. rewrite list_lookup_alter_eq, He. done.
Qed.

Lemma entry_setLevel_other r n n' l :
  wf r → n ≠ n' → entry (setLevel r n' l) n = entry r n.
Proof.
  intros Hwf Hne. rewrite <- (entry_getLoggerInfo_other r n n' Hwf Hne).
  rewrite setLevel_unfold. unfold entry. simpl.
  destruct (loggers (getLoggerInfo r n').1 !! n) as [p|] eqn:Hn; simpl; [|done].
  unfold storeEnabler. apply list_lookup_alter_ne.
  intros Heq. apply Hne.
  destruct (wf_getLoggerInfo r n' Hwf) as [_ Hinj].
  apply (Hinj _ _ p); [done|]. rewrite <- Heq. apply getLoggerInfo_lookup.
Qed.

Lemma wf_setAll l r : wf r → wf (setAll r l).
Proof.
  intros Hwf. unfold setAll.
  apply (foldl_preserves wf); [|done]. intros. by apply wf_setLevel.
Qed.

Lemma setAll_sameSettings l r : sameSettings r (setAll r l).
Proof.
  unfold setAll. apply (foldl_preserves (sameSettings r)); [|done].
  intros a kv (? & ? & ? & ?).
  destruct (setLevel_settings a kv.1 kv.2) as (? & ? & ? & ?).
  unfold sameSettings. repeat split; congruence.
Qed.

Lemma setAll_extends l r : extends r (setAll r l).
Proof.
  unfold setAll. apply (foldl_preserves (extends r)); [|apply extends_refl].
  intros a kv Ha. eapply extends_trans; [done|apply setLevel_extends].
Qed.

Lemma entry_setAll_notin l r n :
  wf r → n ∉ l.*1 → entry (setAll r l) n = entry r n.
Proof.
  revert r. induction l as [|kv l IH]; intros r Hwf Hn; [done|].
  rewrite fmap_cons in Hn. apply not_elem_of_cons in Hn as [Hne Hn].
  unfold setAll in *. simpl. rewrite IH by (done || by apply wf_setLevel).
  by apply entry_setLevel_other.
Qed.

Lemma entry_setAll_in l r n lv :
  wf r → NoDup l.*1 → (n, lv) ∈ l →
  entry (setAll r l) n =
    Some (mkInfo (Some (ConstLevel lv))
            (infoAtomicLogger (default (mkInfo None (freshAtomic r n)) (entry r n)))).
Proof.
  revert r. induction l as [|kv l IH]; intros r Hwf Hnd Hin.
  { by apply elem_of_nil in Hin. }
  rewrite fmap_cons in Hnd. apply NoDup_cons in Hnd as [Hhd Hnd].
  apply elem_of_cons in Hin as [<-|Hin]; unfold setAll in *; simpl.
  - fold (setAll (setLevel r n lv) l).
    rewrite entry_setAll_notin by (done || by apply wf_setLevel).
    by apply entry_setLevel_same.
  - assert (n ≠ kv.1) as Hne.
    { intros ->. apply Hhd. by apply (list_elem_of_fmap_2 fst) in Hin. }
    rewrite IH by (done || by apply wf_setLevel).
    rewrite entry_setLevel_other by done.
    unfold freshAtomic.
    rewrite (newLogger_sameSettings r (setLevel r kv.1 kv.2)); [done|].
    apply setLevel_settings.
Qed.

End Entries.

(** ** Slices and [append] *)

Section Slices.
Context `{Env}.

Lemma wfSlice_nil m : wfSlice m nilSlice.
Proof. by split. Qed.

Lemma elems_length m s : wfSlice m s → length (elems m s) = len s.
Proof.
  unfold wfSlice, elems. destruct (arr s) as [a|].
  - intros (cells & -> & Hc & Hl). simpl. rewrite length_take. lia.
  - by intros [-> _].
Qed.

(** The result of [append] shows the old elements followed by the new
    ones, and is valid. *)
Lemma append_elems m s xs :
  wfSlice m s →
  elems (append m s xs).1 (append m s xs).2 = elems m s ++ xs ∧
  wfSlice (append m s xs).1 (append m s xs).2.
Proof.
  intros Hwf. unfold append.
  destruct (length xs =? 0) eqn:Hxs.
  { apply Nat.eqb_eq, nil_length_inv in Hxs as ->. simpl.
    by rewrite app_nil_r. }
  apply Nat.eqb_neq in Hxs.
  destruct (len s + length xs <=? cap s) eqn:Hfit.
  - apply Nat.leb_le in Hfit. unfold wfSlice, elems in *.
    destruct (arr s) as [a|]; [|lia]. simpl.
    destruct Hwf as (cells & Hm & Hc & Hl).
    rewrite list_lookup_alter_eq, Hm. simpl. split.
    + rewrite app_assoc, take_app_length'; [done|].
      rewrite length_app, length_take. lia.
    + eexists. split; [done|]. split; [|lia].
      rewrite !length_app, length_take, length_drop. lia.
  - apply Nat.leb_gt in Hfit.
    pose proof (growslice_fits (cap s) (len s + length xs)) as Hg.
    pose proof (elems_length m s Hwf) as Hlen.
    unfold wfSlice, elems at 1. simpl.
    rewrite lookup_app_r, Nat.sub_diag by done. simpl. split.
    + rewrite app_assoc, take_app_length'; [done|].
      rewrite length_app. lia.
    + eexists. split; [done|]. split; [|done].
      rewrite !length_app, length_replicate. lia.
Qed.

(** [append] leaves alone what any other valid slice shows, provided that
    slice does not look past the end of [s] in the same array. *)
Lemma append_frame m s xs s' :
  wfSlice m s → wfSlice m s' → arr s' ≠ arr s ∨ len s' ≤ len s →
  elems (append m s xs).1 s' = elems m s' ∧ wfSlice (append m s xs).1 s'.
Proof.
  intros Hwf Hwf' Hsep. unfold append.
  destruct (length xs =? 0) eqn:Hxs; [done|].
  destruct (len s + length xs <=? cap s) eqn:Hfit.
  - apply Nat.leb_le in Hfit. unfold wfSlice, elems in *.
    destruct (arr s) as [a|]; [|done]. simpl.
    destruct Hwf as (cells & Hm & Hc & Hl).
    destruct (arr s') as [a'|]; [|done].
    destruct Hwf' as (cells' & Hm' & Hc' & Hl').
    destruct (decide (a = a')) as [<-|Hne].
    + destruct Hsep as [Hsep|Hsep]; [done|].
      rewrite list_lookup_alter_eq, Hm. simpl.
      assert (cells' = cells) as -> by congruence. split.
      * rewrite take_app_le by (rewrite length_take; lia).
        rewrite take_take. f_equal. lia.
      * eexists. split; [done|]. split; [|done].
        rewrite !length_app, length_take, length_drop. lia.
    + rewrite list_lookup_alter_ne by done. rewrite Hm'. eauto.
  - unfold wfSlice, elems in *. simpl.
    destruct (arr s') as [a'|]; [|done].
    destruct Hwf' as (cells' & Hm' & Hc' & Hl').
    rewrite lookup_app_l by (by eapply lookup_lt_Some). rewrite Hm'. eauto.
Qed.

Lemma append_length m s xs : length m ≤ length (append m s xs).1.
Proof.
  unfold append. destruct (length xs =? 0); [done|].
  destruct (len s + length xs <=? cap s).
  - destruct (arr s); simpl; [by rewrite length_alter|done].
  - simpl. rewrite length_app. lia.
Qed.

Lemma append_fresh m0 m s xs :
  length m0 ≤ length m → freshIn m0 s → freshIn m0 (append m s xs).2.
Proof.
  intros Hle Hs. unfold append. destruct (length xs =? 0); [done|].
  destruct (len s + length xs <=? cap s).
  - unfold freshIn in *. destruct (arr s) eqn:Ha; simpl; [done|by rewrite Ha].
  - simpl. unfold freshIn. simpl. done.
Qed.

Lemma fresh_separate m s s' :
  wfSlice m s' → freshIn m s → arr s' ≠ arr s ∨ len s' ≤ len s.
Proof.
  unfold wfSlice, freshIn. destruct (arr s') as [a'|], (arr s) as [a|]; try (by left).
  - intros (cells & Hm%lookup_lt_Some & _) Hle. left. intros [= ->]. lia.
  - intros [-> _] _. right. lia.
Qed.

End Slices.

(** ** The facade: [clone], [With] and the log methods *)

Section FacadeLemmas.
Context `{Env}.

Lemma nil_separate m s' : wfSlice m s' → arr s' ≠ arr nilSlice ∨ len s' ≤ len nilSlice.
Proof.
  unfold wfSlice. destruct (arr s'); [by left|]. intros [-> _]. by right.
Qed.

Lemma clone_spec m l :
  wfSlice m (context l) →
  elems (clone m l).1 (context (clone m l).2) = elems m (context l) ∧
  wfSlice (clone m l).1 (context (clone m l).2) ∧
  freshIn m (context (clone m l).2) ∧
  length m ≤ length (clone m l).1 ∧
  loggerAtomic (clone m l).2 = loggerAtomic l ∧
  (∀ s', wfSlice m s' →
         elems (clone m l).1 s' = elems m s' ∧ wfSlice (clone m l).1 s').
Proof.
  intros Hwf. unfold clone. destruct (0 <? len (context l)) eqn:Hlen.
  - pose proof (append_elems m nilSlice (elems m (context l)) (wfSlice_nil m)) as [He Hw].
    pose proof (append_length m nilSlice (elems m (context l))) as Hl.
    pose proof (append_fresh m m nilSlice (elems m (context l))) as Hf.
    pose proof (append_frame m nilSlice (elems m (context l))) as Hfr.
    destruct (append m nilSlice (elems m (context l))) as [m1 c]. simpl in *.
    repeat split; try done.
    + by apply Hf.
    + apply Hfr; [apply wfSlice_nil|done|by apply (nil_separate m)].
    + apply Hfr; [apply wfSlice_nil|done|by apply (nil_separate m)].
  - apply Nat.ltb_ge in Hlen. simpl.
    pose proof (elems_length m _ Hwf) as Hn.
    repeat split; try done.
    destruct (elems m (context l)); [done|simpl in Hn; lia].
Qed.

Lemma With_unfold m l args :
  With m l args =
    match length (normalizeArgs args) with
    | O => clone m l
    | _ => let r := append (clone m l).1 (context (clone m l).2) (normalizeArgs args) in
           (r.1, mkLogger (loggerAtomic (clone m l).2) r.2)
    end.
Proof.
  unfold With. destruct (clone m l) as [m1 l2]. simpl.
  destruct (length (normalizeArgs args)); [done|].
  by destruct (append m1 (context l2) (normalizeArgs args)).
Qed.

Lemma With_spec m l args :
  wfSlice m (context l) →
  elems (With m l args).1 (context (With m l args).2) =
    elems m (context l) ++ normalizeArgs args ∧
  wfSlice (With m l args).1 (context (With m l args).2) ∧
  freshIn m (context (With m l args).2) ∧
  loggerAtomic (With m l args).2 = loggerAtomic l ∧
  (∀ s', wfSlice m s' →
         elems (With m l args).1 s' = elems m s' ∧ wfSlice (With m l args).1 s').
Proof.
  intros Hwf. rewrite With_unfold.
  destruct (clone_spec m l Hwf) as (He & Hw & Hf & Hl & Ha & Hfr).
  destruct (length (normalizeArgs args)) eqn:Hlen.
  { apply nil_length_inv in Hlen as ->. rewrite app_nil_r. done. }
  clear Hlen. cbv zeta. simpl.
  destruct (append_elems _ _ (normalizeArgs args) Hw) as [He' Hw'].
  split; [by rewrite He', He|]. split; [done|].
  split; [by apply append_fresh|]. split; [done|].
  intros s' Hs'. destruct (Hfr s' Hs') as [Hes Hws]. rewrite <- Hes.
  apply append_frame; [done..|]. by apply (fresh_separate m).
Qed.

End FacadeLemmas.

Section LogLemmas.
Context `{Env}.

Lemma logw_spec zm r m l msg args lg :
  wfSlice m (context l) → loggerGet r l = Some lg →
  (logw zm r m l msg args).2 =
    Some (mkCall lg zm msg (elems m (context l) ++ normalizeArgs args)) ∧
  (∀ s', wfSlice m s' → arr s' ≠ arr (context l) ∨ len s' ≤ len (context l) →
         elems (logw zm r m l msg args).1 s' = elems m s' ∧
         wfSlice (logw zm r m l msg args).1 s').
Proof.
  intros Hwf Hget. unfold logw. rewrite Hget.
  destruct (0 <? len (context l)) eqn:Hlen.
  - destruct (append_elems m (context l) (normalizeArgs args) Hwf) as [He _].
    pose proof (append_frame m (context l) (normalizeArgs args)) as Hfr.
    destruct (append m (context l) (normalizeArgs args)) as [m1 s]. simpl in *.
    split; [by rewrite He|]. intros s' Hs' Hsep. by apply Hfr.
  - apply Nat.ltb_ge in Hlen. simpl. split; [|done].
    pose proof (elems_length m _ Hwf) as Hn.
    destruct (elems m (context l)); [done|simpl in Hn; lia].
Qed.

Lemma invoke_logw mt : invoke mt = logw (zapOf mt).
Proof. by destruct mt. Qed.

End LogLemmas.

(** ** The facade properties *)

(** C7.  [With] returns a child whose context shows the parent's context
    followed by the normalized arguments and which is bound to the same
    handle; what the parent's context shows is unchanged by the call and by
    any later log call on the child, and a later log call on the parent
    passes zap the parent's context followed by the call's own arguments
    only. *)
Theorem With_leaves_parent_context `{Env} (m : mem) (parent : logger) (args : list Arg) :
  wfSlice m (context parent) →
  let m' := (With m parent args).1 in
  let child := (With m parent args).2 in
  elems m' (context child) = elems m (context parent) ++ normalizeArgs args ∧
  elems m' (context parent) = elems m (context parent) ∧
  loggerAtomic child = loggerAtomic parent ∧
  (∀ mt r msg args2 lg, loggerGet r parent = Some lg →
     (invoke mt r m' parent msg args2).2 =
       Some (mkCall lg (zapOf mt) msg (elems m (context parent) ++ normalizeArgs args2))) ∧
  (∀ mt r msg args2,
     elems (invoke mt r m' child msg args2).1 (context parent) =
       elems m (context parent)).
Proof.
  intros Hwf m' child.
  destruct (With_spec m parent args Hwf) as (He & Hw & Hf & Ha & Hfr).
  destruct (Hfr _ Hwf) as [Hpe Hpw]. fold m' child in He, Hw, Hf, Ha, Hpe, Hpw.
  split; [done|]. split; [done|]. split; [done|]. split.
  - intros mt r msg args2 lg Hget. rewrite invoke_logw.
    destruct (logw_spec (zapOf mt) r m' parent msg args2 lg Hpw Hget) as [-> _].
    by rewrite Hpe.
  - intros mt r msg args2. rewrite invoke_logw, <- Hpe.
    destruct (loggerGet r child) as [lg|] eqn:Hget.
    + apply (logw_spec (zapOf mt) r m' child msg args2 lg Hw Hget); [done|].
      by apply (fresh_separate m).
    + unfold logw. by rewrite Hget.
Qed.

Lemma With_leaves_parent_context_witness :
  let m := [[Field "a" (VInt 1); Bare VNil]] in
  let parent := mkLogger 0 (mkSlice (Some 0) 1 2) in
  elems (With m parent [Field "k" (VString "v")]).1
        (context (With m parent [Field "k" (VString "v")]).2)
    = [Field "a" (VInt 1); Field "k" (VString "v")] ∧
  elems (With m parent [Field "k" (VString "v")]).1 (context parent)
    = [Field "a" (VInt 1)].
Proof.
  intros m parent.
  assert (wfSlice m (context parent)) as Hwf.
  { exists [Field "a" (VInt 1); Bare VNil]. simpl. repeat split; lia. }
  destruct (With_leaves_parent_context m parent [Field "k" (VString "v")] Hwf)
    as (H1 & H2 & _).
  split; [exact H1|exact H2].
Defined.

(** C8.  Each of the six log methods, called with one argument that is not
    a [zapcore.Field], passes zap the facade's context followed by the
    field [zap.Any("", v)] and nothing else; what the facade's context
    shows is unchanged. *)
Theorem log_single_bare_argument `{Env} (mt : logMethod) (r : Factory) (m : mem)
    (l : logger) (msg : string) (v : Value) (lg : SugaredLogger) :
  wfSlice m (context l) → loggerGet r l = Some lg →
  (invoke mt r m l msg [Bare v]).2 =
    Some (mkCall lg (zapOf mt) msg (elems m (context l) ++ [Any "" v])) ∧
  elems (invoke mt r m l msg [Bare v]).1 (context l) = elems m (context l).
Proof.
  intros Hwf Hget. rewrite invoke_logw.
  destruct (logw_spec (zapOf mt) r m l msg [Bare v] lg Hwf Hget) as [-> Hfr].
  split; [done|]. apply Hfr; [done|]. by right.
Qed.

Lemma log_single_bare_argument_witness :
  let r := (NewLogger NewFactory "http").1 in
  let l := (With [] (NewLogger NewFactory "http").2 [Field "req" (VInt 7)]).2 in
  let m := (With [] (NewLogger NewFactory "http").2 [Field "req" (VInt 7)]).1 in
  keysAndValues <$> (invoke MError r m l "failed" [Bare (VError "boom")]).2 =
    Some [Field "req" (VInt 7); Field "" (VError "boom")].
Proof.
  intros r l m.
  assert (wfSlice m (context l)) as Hwf.
  { exists [Field "req" (VInt 7)]. vm_compute. repeat split; lia. }
  assert (loggerGet r l = Some (newLogger NewFactory "http" (mkInfo None (mkAtomic None))))
    as Hget by reflexivity.
  destruct (log_single_bare_argument MError r m l "failed" (VError "boom") _ Hwf Hget)
    as [-> _].
  reflexivity.
Defined.

(** ** [levelForAbbr] *)

Section Abbreviations.
Context `{Env}.

Lemma one_of_true s l : one_of s l = true ↔ s ∈ l.
Proof. unfold one_of. apply bool_decide_eq_true. Qed.

Lemma one_of_false s l : one_of s l = false ↔ s ∉ l.
Proof. unfold one_of. apply bool_decide_eq_false. Qed.

Lemma one_of_sub s l l' :
  forallb (λ x, one_of x l') l = true → one_of s l' = false → one_of s l = false.
Proof.
  rewrite !one_of_false. intros Hsub Hs Hin. apply Hs. clear Hs.
  induction l as [|x l IH]; [by apply elem_of_nil in Hin|].
  simpl in Hsub. apply andb_true_iff in Hsub as [Hx Hsub].
  apply elem_of_cons in Hin as [->|Hin]; [by apply one_of_true|by apply IH].
Qed.

(** On an ASCII abbreviation the switch is taken on the byte-wise
    lowering. *)
Lemma levelForAbbr_ascii abbr s :
  isASCII abbr = true → lower_bytes abbr = s → ToLower abbr = s.
Proof. intros Ha <-. by apply ToLower_ascii. Qed.

(** The default branch of the switch. *)
Lemma levelForAbbr_deprecated_unknown_aux abbr :
  one_of (ToLower abbr) knownAbbrs = false →
  (levelForAbbr abbr).1 = WarnLevel ∧
  (levelForAbbr abbr).2 = Some (abbr +:+ " not recognized level, defaulting to warn").
Proof.
  intros Hs. unfold levelForAbbr.
  rewrite !(one_of_sub (ToLower abbr) _ knownAbbrs) by (done || reflexivity).
  done.
Qed.

End Abbreviations.

(** C3.  [levelForAbbr] compares the lower-cased abbreviation: "wrn" and
    "warn" give [WarnLevel], "pan", "panic", "ftl" and "fatal" give
    [PanicLevel], each with a deprecation note, and an abbreviation that
    matches no case label gives [WarnLevel] with the "not recognized" note;
    so do "WRN", "warn" and "bogus" whatever [ToLower] does outside
    ASCII.  In the severities of the spec [WarnLevel] stands for INFO and
    [PanicLevel] for ERROR. *)
Theorem levelForAbbr_deprecated_and_unknown `{Env} (abbr : string) :
  (one_of (ToLower abbr) ["wrn"; "warn"] = true →
     levelForAbbr abbr = (WarnLevel, Some "WRN is deprecated, use INF")) ∧
  (one_of (ToLower abbr) ["pan"; "panic"] = true →
     levelForAbbr abbr = (PanicLevel, Some "PAN is deprecated, use ERR")) ∧
  (one_of (ToLower abbr) ["ftl"; "fatal"] = true →
     levelForAbbr abbr =
       (PanicLevel, Some "FTL is deprecated, use ERR, mapped to PANIC")) ∧
  (one_of (ToLower abbr) knownAbbrs = false →
     levelForAbbr abbr =
       (WarnLevel, Some (abbr +:+ " not recognized level, defaulting to warn"))) ∧
  levelForAbbr "WRN" = (WarnLevel, Some "WRN is deprecated, use INF") ∧
  levelForAbbr "warn" = (WarnLevel, Some "WRN is deprecated, use INF") ∧
  levelForAbbr "bogus" =
    (WarnLevel, Some "bogus not recognized level, defaulting to warn") ∧
  severityOf WarnLevel INFO ∧ severityOf PanicLevel ERROR.
Proof.
  split; [|split; [|split; [|split; [|split; [|split; [|split; [|split; simpl; auto]]]]]]].
  - intros Hs%one_of_true. unfold levelForAbbr.
    apply elem_of_cons in Hs as [->|Hs]; [done|].
    apply list_elem_of_singleton in Hs as ->. done.
  - intros Hs%one_of_true. unfold levelForAbbr.
    apply elem_of_cons in Hs as [->|Hs]; [done|].
    apply list_elem_of_singleton in Hs as ->. done.
  - intros Hs%one_of_true. unfold levelForAbbr.
    apply elem_of_cons in Hs as [->|Hs]; [done|].
    apply list_elem_of_singleton in Hs as ->. done.
  - intros Hs. unfold levelForAbbr.
    rewrite !(one_of_sub (ToLower abbr) _ knownAbbrs) by (done || reflexivity).
    done.
  - unfold levelForAbbr. by rewrite (levelForAbbr_ascii "WRN" "wrn").
  - unfold levelForAbbr. by rewrite (levelForAbbr_ascii "warn" "warn").
  - unfold levelForAbbr. by rewrite (levelForAbbr_ascii "bogus" "bogus").
Qed.

Lemma levelForAbbr_deprecated_and_unknown_witness :
  levelForAbbr "Warn" = (WarnLevel, Some "WRN is deprecated, use INF") ∧
  levelForAbbr "PANIC" = (PanicLevel, Some "PAN is deprecated, use ERR") ∧
  levelForAbbr "Fatal" =
    (PanicLevel, Some "FTL is deprecated, use ERR, mapped to PANIC") ∧
  levelForAbbr "verbose" =
    (WarnLevel, Some "verbose not recognized level, defaulting to warn").
Proof.
  split; [|split; [|split]].
  - apply (levelForAbbr_deprecated_and_unknown "Warn"). reflexivity.
  - apply (levelForAbbr_deprecated_and_unknown "PANIC"). reflexivity.
  - apply (levelForAbbr_deprecated_and_unknown "Fatal"). reflexivity.
  - apply (levelForAbbr_deprecated_and_unknown "verbose"). reflexivity.
Defined.

(** ** [Configure] *)

(** C9.  With an encoding name that the switch accepts, [Configure]
    returns [nil] whatever [LevelsString] returned for the level string:
    the state is the one [LevelsString] left, with the encoder and the
    caller flag stored and every entry rebuilt. *)
Theorem Configure_drops_LevelsString_error `{Env} (r : Factory) (cfg : Config) :
  one_of (Encoding cfg) knownEncodings = true →
  (Configure r cfg).2 = None ∧
  ∃ e b,
    (Configure r cfg).1 =
      refreshLoggers
        (withAddCaller
           (withEncoder
              (LevelsString (SetDefaultLevel r (DefaultLevel cfg)) (Levels cfg)).1
              (Some e)) b).
Proof.
  intros Henc%one_of_true. unfold Configure.
  repeat (apply elem_of_cons in Henc as [->|Henc]); [..|by apply elem_of_nil in Henc];
    simpl; (split; [done|]); eauto.
Qed.

Lemma Configure_drops_LevelsString_error_witness :
  let cfg := mkConfig 0 None "json" false None "http=bogus,sql=WRN" in
  is_Some (LevelsString (SetDefaultLevel NewFactory (DefaultLevel cfg)) (Levels cfg)).2 ∧
  (Configure NewFactory cfg).2 = None.
Proof.
  intros cfg. split.
  - vm_compute. eauto.
  - apply (Configure_drops_LevelsString_error NewFactory cfg). reflexivity.
Defined.

(** C10.  With an encoding name that the switch does not accept,
    [Configure] returns an error after it has stored the default level of
    the configuration and nothing else: the encoder, the sink, the caller
    flag, the map and every entry are as before. *)
Theorem Configure_bad_encoding_sets_default `{Env} (r : Factory) (cfg : Config) :
  one_of (Encoding cfg) knownEncodings = false →
  let r' := (Configure r cfg).1 in
  (Configure r cfg).2 =
    Some (Encoding cfg +:+
          " is not a valid encoding, must be one of: json, ltsv, term, or term-color") ∧
  defaultLevel r' = DefaultLevel cfg ∧
  encoder r' = encoder r ∧ out r' = out r ∧ addCaller r' = addCaller r ∧
  loggers r' = loggers r ∧ infos r' = infos r.
Proof.
  intros Henc. unfold Configure.
  rewrite !(one_of_sub (Encoding cfg) _ knownEncodings) by (done || reflexivity).
  done.
Qed.

Lemma Configure_bad_encoding_sets_default_witness :
  let r := SetLevel NewFactory "sql" ErrorLevel in
  let cfg := mkConfig DebugLevel None "xml" true (Some true) "*=INF,http" in
  defaultLevel r = OffLevel ∧
  is_Some (Configure r cfg).2 ∧
  defaultLevel (Configure r cfg).1 = DebugLevel ∧
  infos (Configure r cfg).1 = infos r.
Proof.
  intros r cfg.
  destruct (Configure_bad_encoding_sets_default r cfg) as (He & Hd & _ & _ & _ & _ & Hi).
  { reflexivity. }
  split; [reflexivity|]. split; [rewrite He; eauto|]. split; [exact Hd|exact Hi].
Defined.

(** ** Every operation keeps the invariant and the pointers *)

Section Operations.
Context `{Env}.

Lemma refreshLoggers_sameSettings r : sameSettings r (refreshLoggers r).
Proof. rewrite refreshLoggers_eq. by repeat split. Qed.

Lemma published_refreshLoggers r n :
  wf r → is_Some (loggers r !! n) → published (refreshLoggers r) n.
Proof.
  intros Hwf [p Hp]. destruct (entry_is_Some r n p Hwf Hp) as [info Hi].
  exists (republish r n info). rewrite entry_refreshLoggers, Hi by done.
  split; [done|]. simpl. f_equal.
  by rewrite (newLogger_sameSettings r (refreshLoggers r))
    by apply refreshLoggers_sameSettings.
Qed.

Lemma LevelsString_before_refresh r s :
  ∃ r3, (wf r → wf r3) ∧ extends r r3 ∧
        ((LevelsString r s).1 = r3 ∨ (LevelsString r s).1 = refreshLoggers r3).
Proof.
  rewrite LevelsString_eq. cbv zeta.
  set (levelMap0 := levelOf <$> parseConfigString s).
  set (r1 := match levelMap0 !! "*" with Some d => SetDefaultLevel r d | None => r end).
  assert ((wf r → wf r1) ∧ extends r r1) as [Hwf1 Hext1].
  { unfold r1. destruct (levelMap0 !! "*"); [|split; [done|apply extends_refl]].
    split; [by apply wf_same|by apply extends_same]. }
  exists (setAll (resetAll (delete "*" levelMap0) r1) (range (delete "*" levelMap0))).
  split; [|split].
  - intros Hwf. by apply wf_setAll, wf_resetAll, Hwf1.
  - eapply extends_trans; [done|].
    eapply extends_trans; [|apply setAll_extends]. by apply extends_same.
  - destruct (0 <? length _); [by left|by right].
Qed.

Lemma wf_LevelsString r s : wf r → wf (LevelsString r s).1.
Proof.
  intros Hwf. destruct (LevelsString_before_refresh r s) as (r3 & Hwf3 & _ & [->| ->]).
  - by apply Hwf3.
  - by apply wf_refreshLoggers, Hwf3.
Qed.

Lemma LevelsString_extends r s : extends r (LevelsString r s).1.
Proof.
  destruct (LevelsString_before_refresh r s) as (r3 & _ & Hext & [->| ->]); [done|].
  eapply extends_trans; [done|]. apply extends_same, refreshLoggers_loggers.
Qed.

(** [Configure] either stops after the default level or ends in a
    rebuild. *)
Lemma Configure_cases r cfg :
  (Configure r cfg).1 = SetDefaultLevel r (DefaultLevel cfg) ∨
  ∃ e b, (Configure r cfg).1 =
    refreshLoggers
      (withAddCaller
         (withEncoder
            (LevelsString (SetDefaultLevel r (DefaultLevel cfg)) (Levels cfg)).1
            (Some e)) b).
Proof.
  unfold Configure.
  repeat (match goal with |- context [if ?b then _ else _] => destruct b end;
          [right; eauto|]).
  by left.
Qed.

(** Every operation that rebuilds is [refreshLoggers] after a step that
    keeps the invariant and the pointers. *)
Lemma run_rebuilds op r :
  rebuilds op = true →
  ∃ r0, run op r = refreshLoggers r0 ∧ (wf r → wf r0) ∧ extends r r0.
Proof.
  destruct op as [| name l | | e | w | b | | | [prior]]; try done; intros _; simpl.
  - exists (setLevel r name l). split; [done|]. split.
    + apply wf_setLevel.
    + apply setLevel_extends.
  - exists (withEncoder r e). split; [done|]. split; [by apply wf_same|by apply extends_same].
  - exists (withOut r w). split; [done|]. split; [by apply wf_same|by apply extends_same].
  - exists (withAddCaller r b). split; [done|]. split; [by apply wf_same|by apply extends_same].
  - exists (withOut r prior). split; [done|]. split; [by apply wf_same|by apply extends_same].
Qed.

Lemma run_wf_extends op r : (wf r → wf (run op r)) ∧ extends r (run op r).
Proof.
  destruct (rebuilds op) eqn:Hreb.
  { destruct (run_rebuilds op r Hreb) as (r0 & -> & Hwf & Hext). split.
    - intros Hr. by apply wf_refreshLoggers, Hwf.
    - eapply extends_trans; [done|]. apply extends_same, refreshLoggers_loggers. }
  destruct op as [name | | l | | | | s | cfg |]; try done; simpl.
  - unfold NewLogger, NewDeprecatedLogger.
    pose proof (wf_getLoggerInfo r name). pose proof (getLoggerInfo_extends r name).
    by destruct (getLoggerInfo r name).
  - split; [by apply wf_same|by apply extends_same].
  - split; [apply wf_LevelsString|apply LevelsString_extends].
  - assert ((wf r → wf (SetDefaultLevel r (DefaultLevel cfg))) ∧
            extends r (SetDefaultLevel r (DefaultLevel cfg))) as [Hwf0 Hext0].
    { split; [by apply wf_same|by apply extends_same]. }
    destruct (Configure_cases r cfg) as [->|(e & b & ->)]; [done|]. split.
    + intros Hr. apply wf_refreshLoggers.
      apply (wf_same (LevelsString (SetDefaultLevel r (DefaultLevel cfg)) (Levels cfg)).1);
        [done..|]. by apply wf_LevelsString, Hwf0.
    + eapply extends_trans; [done|].
      eapply extends_trans; [apply LevelsString_extends|].
      apply extends_same. by rewrite refreshLoggers_loggers.
Qed.

Lemma runAll_wf_extends ops r : (wf r → wf (runAll ops r)) ∧ extends r (runAll ops r).
Proof.
  unfold runAll.
  apply (foldl_preserves (λ r', (wf r → wf r') ∧ extends r r')).
  - intros a op [Hwf Hext]. destruct (run_wf_extends op a) as [Hwf' Hext'].
    split; [eauto|]. by eapply extends_trans.
  - split; [done|apply extends_refl].
Qed.

(** Every registry that the operations build from [NewFactory] is
    well-formed. *)
Lemma wf_reachable ops : wf (runAll ops NewFactory).
Proof. apply runAll_wf_extends, wf_NewFactory. Qed.

Lemma NewLogger_unfold r name :
  NewLogger r name = ((getLoggerInfo r name).1, mkLogger (getLoggerInfo r name).2 nilSlice).
Proof. unfold NewLogger, NewDeprecatedLogger. by destruct (getLoggerInfo r name). Qed.

Lemma loggerGet_entry r n l :
  loggers r !! n = Some (loggerAtomic l) →
  loggerGet r l = entry r n ≫= λ info, get (infoAtomicLogger info).
Proof. intros Hn. unfold loggerGet, entry. by rewrite Hn. Qed.

End Operations.

(** ** The registry properties *)

(** C4, as the code has it.  For a name without an entry, [SetLevel]
    creates the entry, at a new pointer, with the level as its override,
    and rebuilds every entry: the new entry's published instance is built
    from the current settings with that constant level, whatever the
    default level becomes.  A later [NewLogger] for the name changes
    nothing and returns a facade bound to that entry. *)
Theorem SetLevel_absent_creates_entry `{Env} (r : Factory) (name : string) (l : Level) :
  wf r → loggers r !! name = None →
  let r' := SetLevel r name l in
  let lg := mkSugared (getEncoder r) (getOut r) (ConstLevel l) (addCaller r) name in
  loggers r' !! name = Some (length (infos r)) ∧
  entry r' name = Some (mkInfo (Some (ConstLevel l)) (mkAtomic (Some lg))) ∧
  (∀ n, n ≠ name → entry r' n = republish r n <$> entry r n) ∧
  NewLogger r' name = (r', mkLogger (length (infos r)) nilSlice) ∧
  loggerGet r' (NewLogger r' name).2 = Some lg ∧
  (∀ d, effectiveLevel (SetDefaultLevel r' d) lg = l).
Proof.
  intros Hwf Hn r' lg.
  pose proof (wf_setLevel r name l Hwf) as Hwf0.
  destruct (setLevel_settings r name l) as (Hd & He & Ho & Ha).
  assert (sameSettings r (setLevel r name l)) as Hsame by done.
  assert (loggers r' !! name = Some (length (infos r))) as Hl.
  { unfold r', SetLevel. rewrite refreshLoggers_loggers, setLevel_unfold. simpl.
    rewrite getLoggerInfo_lookup.
    by destruct (getLoggerInfo_fresh_infos r name Hn) as [_ ->]. }
  assert (entry r' name = Some (mkInfo (Some (ConstLevel l)) (mkAtomic (Some lg)))) as Hentry.
  { unfold r', SetLevel. rewrite entry_refreshLoggers, entry_setLevel_same by done.
    simpl. unfold republish. simpl.
    by rewrite (newLogger_sameSettings r (setLevel r name l)). }
  split; [done|]. split; [done|]. split; [|split; [|split]].
  - intros n Hne. unfold r', SetLevel.
    rewrite entry_refreshLoggers, entry_setLevel_other by done.
    destruct (entry r n) as [info|]; [|done]. simpl. unfold republish.
    by rewrite (newLogger_sameSettings r (setLevel r name l)).
  - by rewrite NewLogger_unfold, (getLoggerInfo_found _ _ _ Hl).
  - rewrite NewLogger_unfold, (getLoggerInfo_found _ _ _ Hl). simpl.
    rewrite (loggerGet_entry r' name) by done. by rewrite Hentry.
  - done.
Qed.

Lemma SetLevel_absent_creates_entry_witness :
  let r' := SetLevel NewFactory "sql" ErrorLevel in
  loggers r' !! "sql" = Some 0 ∧ NewLogger r' "sql" = (r', mkLogger 0 nilSlice).
Proof.
  intros r'.
  destruct (SetLevel_absent_creates_entry NewFactory "sql" ErrorLevel)
    as (H1 & _ & _ & H2 & _).
  - apply wf_NewFactory.
  - reflexivity.
  - split; [exact H1|exact H2].
Defined.

(** C4, as the claim has it, fails: the name has no entry before
    [SetLevel] and has one after. *)
Lemma SetLevel_absent_no_entry_counterexample :
  loggers NewFactory !! "sql" = None ∧
  loggers (SetLevel NewFactory "sql" ErrorLevel) !! "sql" ≠ None.
Proof. split; [reflexivity|]. vm_compute. discriminate. Qed.

(** C6.  After the closure returned by [SetOut] has run, whatever
    operations ran since that [SetOut], the sink setting is the one from
    before the [SetOut], every entry's published instance writes to the
    sink that was in force then, and so does the instance behind any facade
    obtained afterwards. *)
Theorem SetOut_restorer_restores_sink `{Env} (r : Factory) (w : option Writer)
    (ops : list adminOp) :
  wf r →
  let restore := (SetOut r w).2 in
  let r3 := call restore (runAll ops (SetOut r w).1) in
  out r3 = out r ∧
  (∀ n info, entry r3 n = Some info →
             ∃ lg, get (infoAtomicLogger info) = Some lg ∧ coreOut lg = getOut r) ∧
  (∀ name, ∃ lg, loggerGet (NewLogger r3 name).1 (NewLogger r3 name).2 = Some lg ∧
                 coreOut lg = getOut r).
Proof.
  intros Hwf restore r3.
  set (r2 := runAll ops (SetOut r w).1) in *.
  assert (wf r2) as Hwf2.
  { apply runAll_wf_extends. simpl. apply wf_refreshLoggers. by apply (wf_same r). }
  assert (r3 = refreshLoggers (withOut r2 (out r))) as Hr3 by done.
  assert (wf (withOut r2 (out r))) as Hwf2' by by apply (wf_same r2).
  assert (wf r3) as Hwf3 by (rewrite Hr3; by apply wf_refreshLoggers).
  assert (out r3 = out r) as Hout.
  { rewrite Hr3. by destruct (refreshLoggers_sameSettings (withOut r2 (out r))) as (_ & _ & -> & _). }
  assert (getOut r3 = getOut r) as Hgo by (unfold getOut; by rewrite Hout).
  assert (∀ n info, entry r3 n = Some info →
            ∃ lg, get (infoAtomicLogger info) = Some lg ∧ coreOut lg = getOut r) as Hall.
  { intros n info. rewrite Hr3, entry_refreshLoggers by done.
    destruct (entry (withOut r2 (out r)) n) as [info0|]; [|done]. simpl.
    intros [= <-]. eexists. split; [done|]. done. }
  split; [done|]. split; [done|].
  intros name. rewrite NewLogger_unfold. simpl.
  rewrite (loggerGet_entry _ name) by apply getLoggerInfo_lookup.
  rewrite entry_getLoggerInfo_same by done. simpl.
  destruct (entry r3 name) as [info|] eqn:Hi; simpl.
  - by apply (Hall name).
  - eexists. split; [done|]. done.
Qed.

Lemma SetOut_restorer_restores_sink_witness :
  let r := (SetOut (SetLevel NewFactory "sql" ErrorLevel) (Some (Sink 1))).1 in
  let ops := [OpSetEncoder (Some (UserEncoder 3)); OpSetOut (Some (Sink 9));
              OpLevelsString "*=DBG,-http"; OpSetAddCaller true] in
  out (call (SetOut r (Some (Sink 2))).2 (runAll ops (SetOut r (Some (Sink 2))).1))
    = Some (Sink 1).
Proof.
  intros r ops.
  apply (SetOut_restorer_restores_sink r (Some (Sink 2)) ops).
  unfold r. simpl.
  apply wf_refreshLoggers, (wf_same (SetLevel NewFactory "sql" ErrorLevel)); [done..|].
  apply wf_refreshLoggers, wf_setLevel, wf_NewFactory.
Defined.

(** ** [LevelsString] entry by entry *)

Section LevelsEntries.
Context `{Env}.

Lemma LevelsString_cases r s :
  LevelsString r s =
    if (0 <? length (notesOf s))%nat then
      (beforeRefresh r s,
       Some ("errors parsing config string: " +:+ Join (notesOf s) ", "))
    else (refreshLoggers (beforeRefresh r s), None).
Proof. by rewrite LevelsString_eq. Qed.

(** The registry after the default level is stored. *)
Lemma beforeRefresh_start r s :
  ∃ r1, beforeRefresh r s =
          setAll (resetAll (delete "*" (levelsOf s)) r1) (range (delete "*" (levelsOf s))) ∧
        defaultLevel r1 = default (defaultLevel r) (levelsOf s !! "*") ∧
        encoder r1 = encoder r ∧ out r1 = out r ∧ addCaller r1 = addCaller r ∧
        loggers r1 = loggers r ∧ infos r1 = infos r.
Proof.
  unfold beforeRefresh. destruct (levelsOf s !! "*"); eexists; by repeat split.
Qed.

Lemma wf_beforeRefresh r s : wf r → wf (beforeRefresh r s).
Proof.
  intros Hwf. destruct (beforeRefresh_start r s) as (r1 & -> & _ & _ & _ & _ & Hl & Hi).
  apply wf_setAll, wf_resetAll, (wf_same r); [done|by rewrite Hi|done].
Qed.

Lemma beforeRefresh_settings r s :
  defaultLevel (beforeRefresh r s) = default (defaultLevel r) (levelsOf s !! "*") ∧
  encoder (beforeRefresh r s) = encoder r ∧ out (beforeRefresh r s) = out r ∧
  addCaller (beforeRefresh r s) = addCaller r.
Proof.
  destruct (beforeRefresh_start r s) as (r1 & -> & Hd & He & Ho & Ha & _).
  destruct (setAll_sameSettings (range (delete "*" (levelsOf s)))
              (resetAll (delete "*" (levelsOf s)) r1)) as (Hd' & He' & Ho' & Ha').
  rewrite Hd', He', Ho', Ha'. simpl. done.
Qed.

Lemma entry_same r r' n :
  loggers r' = loggers r → infos r' = infos r → entry r' n = entry r n.
Proof. unfold entry. by intros -> ->. Qed.

(** A name of the level map ends with that level as its override; its
    handle is the one it had, or the one [getLoggerInfo] creates. *)
Lemma beforeRefresh_named r s n lv :
  wf r → n ≠ "*" → levelsOf s !! n = Some lv →
  ∃ af, entry (beforeRefresh r s) n = Some (mkInfo (Some (ConstLevel lv)) af) ∧
        (∀ info, entry r n = Some info → af = infoAtomicLogger info) ∧
        (entry r n = None →
         af = mkAtomic (Some (mkSugared (getEncoder r) (getOut r) AtomicDefault
                                        (addCaller r) n))).
Proof.
  intros Hwf Hne Hn.
  destruct (beforeRefresh_start r s) as (r1 & -> & _ & He & Ho & Ha & Hl & Hi).
  assert (wf (resetAll (delete "*" (levelsOf s)) r1)) as Hwf1.
  { apply wf_resetAll, (wf_same r); [done|by rewrite Hi|done]. }
  rewrite (entry_setAll_in _ _ n lv);
    [|done|apply range_NoDup_fst|by apply range_elem; rewrite lookup_delete_ne].
  eexists. split; [done|].
  rewrite entry_resetAll by (apply (wf_same r); [done|by rewrite Hi|done]).
  rewrite (entry_same r r1) by done. split.
  - intros info ->. simpl. unfold resetTo. by destruct (delete _ _ !! n).
  - intros ->. simpl. unfold freshAtomic, newLogger, getEncoder, getOut. simpl.
    by rewrite He, Ho, Ha.
Qed.

(** An existing entry whose name the level map lacks ends with the
    factory's [AtomicLevel] as its enabler and the handle it had. *)
Lemma beforeRefresh_unnamed r s n :
  wf r → delete "*" (levelsOf s) !! n = None →
  entry (beforeRefresh r s) n =
    (λ info, mkInfo (Some AtomicDefault) (infoAtomicLogger info)) <$> entry r n.
Proof.
  intros Hwf Hn.
  destruct (beforeRefresh_start r s) as (r1 & -> & _ & _ & _ & _ & Hl & Hi).
  assert (wf r1) as Hwf1 by (apply (wf_same r); [done|by rewrite Hi|done]).
  rewrite entry_setAll_notin.
  - rewrite entry_resetAll by done. rewrite (entry_same r r1) by done.
    destruct (entry r n); [|done]. simpl. unfold resetTo. by rewrite Hn.
  - by apply wf_resetAll.
  - intros ([k v] & -> & Hin%range_elem)%list_elem_of_fmap. simpl in *. congruence.
Qed.

(** No existing handle is written by the three loops. *)
Lemma beforeRefresh_handles r s n info :
  wf r → entry r n = Some info →
  infoAtomicLogger <$> entry (beforeRefresh r s) n = Some (infoAtomicLogger info).
Proof.
  intros Hwf Hi.
  destruct (delete "*" (levelsOf s) !! n) as [lv|] eqn:Hn.
  - apply lookup_delete_Some in Hn as [Hne Hn].
    destruct (beforeRefresh_named r s n lv Hwf) as (af & -> & Haf & _); [done..|].
    simpl. f_equal. by apply Haf.
  - rewrite beforeRefresh_unnamed, Hi by done. done.
Qed.

Lemma notesOf_elem s note :
  note ∈ notesOf s ↔
  ∃ k t, parseConfigString s !! k = Some (SString t) ∧ (levelForAbbr t).2 = Some note.
Proof.
  unfold notesOf. rewrite list_elem_of_omap. split.
  - intros ([k [b|t]] & Hin%range_elem & Hnote); [done|]. eauto.
  - intros (k & t & Hk & Hnote). exists (k, SString t). by rewrite range_elem.
Qed.

End LevelsEntries.

Section LevelsExamples.
Context `{Env}.

Lemma notesOf_nil s :
  (∀ k t, parseConfigString s !! k = Some (SString t) → (levelForAbbr t).2 = None) →
  notesOf s = [].
Proof.
  intros Hall. destruct (notesOf s) as [|note l] eqn:Hs; [done|].
  assert (note ∈ notesOf s) as (k & t & Hk & Hnote)%notesOf_elem.
  { rewrite Hs. apply elem_of_cons. by left. }
  rewrite (Hall k t Hk) in Hnote. done.
Qed.

Lemma levelForAbbr_INF : levelForAbbr "INF" = (InfoLevel, None).
Proof. unfold levelForAbbr. by rewrite (levelForAbbr_ascii "INF" "inf"). Qed.

Lemma entry_refresh_built r n info :
  wf r → entry r n = Some info →
  entry (refreshLoggers r) n =
    Some (mkInfo (levelEnabler info)
            (mkAtomic (Some (mkSugared (getEncoder r) (getOut r)
                               (default AtomicDefault (levelEnabler info))
                               (addCaller r) n)))).
Proof.
  intros Hwf Hi. rewrite entry_refreshLoggers, Hi by done. simpl.
  unfold republish, newLogger. simpl. by destruct (levelEnabler info).
Qed.

(** The level strings "*=INF,http" and "*=INF,-http", by their parsed
    map. *)
Lemma LevelsString_star_INF_http r s v :
  wf r → parseConfigString s = <["http" := SBool v]> {["*" := SString "INF"]} →
  let r' := (LevelsString r s).1 in
  (LevelsString r s).2 = None ∧
  defaultLevel r' = InfoLevel ∧
  entry r' "http" =
    Some (mkInfo (Some (ConstLevel (levelOf (SBool v))))
            (mkAtomic (Some (mkSugared (getEncoder r) (getOut r)
                               (ConstLevel (levelOf (SBool v))) (addCaller r) "http")))) ∧
  (∀ n info, n ≠ "http" → entry r n = Some info →
     entry r' n =
       Some (mkInfo (Some AtomicDefault)
               (mkAtomic (Some (mkSugared (getEncoder r) (getOut r) AtomicDefault
                                  (addCaller r) n))))).
Proof.
  intros Hwf Hparse r'.
  assert (levelsOf s = <["http" := levelOf (SBool v)]> {["*" := InfoLevel]}) as Hlv.
  { unfold levelsOf. rewrite Hparse, fmap_insert, map_fmap_singleton. simpl.
    by rewrite levelForAbbr_INF. }
  assert (notesOf s = []) as Hnotes.
  { apply notesOf_nil. intros k t. rewrite Hparse.
    intros [[_ [=]]|[_ [<- [= <-]]%lookup_singleton_Some]]%lookup_insert_Some.
    by rewrite levelForAbbr_INF. }
  pose proof (wf_beforeRefresh r s Hwf) as Hwfb.
  destruct (beforeRefresh_settings r s) as (Hd & He & Ho & Ha).
  assert (r' = refreshLoggers (beforeRefresh r s)) as Hr'.
  { unfold r'. by rewrite LevelsString_cases, Hnotes. }
  split; [by rewrite LevelsString_cases, Hnotes|]. split; [|split].
  - rewrite Hr'.
    destruct (refreshLoggers_sameSettings (beforeRefresh r s)) as (-> & _).
    rewrite Hd, Hlv. by rewrite lookup_insert_ne, lookup_singleton_eq.
  - destruct (beforeRefresh_named r s "http" (levelOf (SBool v)) Hwf) as (af & Hent & _).
    { done. } { rewrite Hlv. apply lookup_insert_eq. }
    rewrite Hr', (entry_refresh_built _ _ _ Hwfb Hent). simpl.
    unfold getEncoder, getOut. by rewrite He, Ho, Ha.
  - intros n info Hne Hi.
    assert (entry (beforeRefresh r s) n =
              Some (mkInfo (Some AtomicDefault) (infoAtomicLogger info))) as Hent.
    { rewrite beforeRefresh_unnamed, Hi; [done..|].
      rewrite Hlv. destruct (decide (n = "*")) as [->|Hstar].
      - apply lookup_delete_eq.
      - by rewrite lookup_delete_ne, lookup_insert_ne, lookup_singleton_ne. }
    rewrite Hr', (entry_refresh_built _ _ _ Hwfb Hent). simpl.
    unfold getEncoder, getOut. by rewrite He, Ho, Ha.
Qed.

Lemma parse_star_INF_http :
  parseConfigString "*=INF,http" = <["http" := SBool true]> {["*" := SString "INF"]}.
Proof. reflexivity. Qed.

Lemma parse_star_INF_minus_http :
  parseConfigString "*=INF,-http" = <["http" := SBool false]> {["*" := SString "INF"]}.
Proof. reflexivity. Qed.

End LevelsExamples.

(** ** [LevelsString] *)

(** C2.  On any registry, [LevelsString("*=INF,http")] returns no error,
    stores [InfoLevel] as the default level, leaves "http" with the
    override [AllLevel] and a published instance enabled at [AllLevel], and
    leaves every other existing entry ("sql" with its former override
    among them) with the factory's [AtomicLevel] as enabler, so that its
    published instance is enabled at [InfoLevel] and follows the default
    level from then on.  With "-http" in place of "http" the override and
    the instance of "http" are at [OffLevel]. *)
Theorem LevelsString_default_and_bare_name `{Env} (r : Factory) :
  wf r →
  let r' := (LevelsString r "*=INF,http").1 in
  let r'' := (LevelsString r "*=INF,-http").1 in
  (LevelsString r "*=INF,http").2 = None ∧
  defaultLevel r' = InfoLevel ∧
  (∃ lg, entry r' "http" = Some (mkInfo (Some (ConstLevel AllLevel)) (mkAtomic (Some lg))) ∧
         ∀ d, effectiveLevel (SetDefaultLevel r' d) lg = AllLevel) ∧
  (∀ n info, n ≠ "http" → entry r n = Some info →
     ∃ lg, entry r' n = Some (mkInfo (Some AtomicDefault) (mkAtomic (Some lg))) ∧
           effectiveLevel r' lg = InfoLevel ∧
           ∀ d, effectiveLevel (SetDefaultLevel r' d) lg = d) ∧
  (LevelsString r "*=INF,-http").2 = None ∧
  defaultLevel r'' = InfoLevel ∧
  (∃ lg, entry r'' "http" = Some (mkInfo (Some (ConstLevel OffLevel)) (mkAtomic (Some lg))) ∧
         ∀ d, effectiveLevel (SetDefaultLevel r'' d) lg = OffLevel).
Proof.
  intros Hwf r' r''.
  destruct (LevelsString_star_INF_http r _ true Hwf parse_star_INF_http)
    as (Herr & Hd & Hhttp & Hrest).
  destruct (LevelsString_star_INF_http r _ false Hwf parse_star_INF_minus_http)
    as (Herr' & Hd' & Hhttp' & _).
  fold r' in Hd, Hhttp, Hrest. fold r'' in Hd', Hhttp'.
  split; [done|]. split; [done|]. split; [eauto|]. split; [|eauto].
  intros n info Hne Hi. eexists. split; [by apply (Hrest n info)|]. done.
Qed.

Lemma LevelsString_default_and_bare_name_witness :
  let r := SetLevel NewFactory "sql" ErrorLevel in
  let r' := (LevelsString r "*=INF,http").1 in
  (levelEnabler <$> entry r "sql") = Some (Some (ConstLevel ErrorLevel)) ∧
  defaultLevel r' = InfoLevel ∧
  (levelEnabler <$> entry r' "sql") = Some (Some AtomicDefault) ∧
  (levelEnabler <$> entry r' "http") = Some (Some (ConstLevel AllLevel)).
Proof.
  intros r r'.
  assert (wf r) as Hwf.
  { unfold r, SetLevel. apply wf_refreshLoggers, wf_setLevel, wf_NewFactory. }
  destruct (LevelsString_default_and_bare_name r Hwf)
    as (_ & Hd & (lg & Hhttp & _) & Hrest & _).
  assert (entry r "sql" =
            Some (mkInfo (Some (ConstLevel ErrorLevel))
                    (mkAtomic (Some (mkSugared (NewLTSVEncoder NewEncoderConfig) Stdout
                                       (ConstLevel ErrorLevel) false "sql"))))) as Hsql
    by reflexivity.
  destruct (Hrest "sql" _ ltac:(discriminate) Hsql) as (lg' & Hsql' & _).
  fold r' in Hd, Hhttp, Hsql'.
  split; [by rewrite Hsql|].
  split; [exact Hd|]. split; [by rewrite Hsql'|by rewrite Hhttp].
Defined.

(** C1, what the code does.  When a value of the level string makes
    [levelForAbbr] return a note (an abbreviation it does not recognize, or
    a deprecated one), [LevelsString] returns the error made of all the
    notes, after it has stored the default level and the overrides of the
    names of the string, and without the rebuild: every entry that existed
    keeps the instance it had published before the call. *)
Theorem LevelsString_notes_return_before_rebuild `{Env} (r : Factory)
    (s k t note : string) :
  wf r →
  parseConfigString s !! k = Some (SString t) →
  (levelForAbbr t).2 = Some note →
  let r' := (LevelsString r s).1 in
  (LevelsString r s).2 =
    Some ("errors parsing config string: " +:+ Join (notesOf s) ", ") ∧
  note ∈ notesOf s ∧
  defaultLevel r' = default (defaultLevel r) (levelsOf s !! "*") ∧
  (∀ n lv, n ≠ "*" → levelsOf s !! n = Some lv →
           levelEnabler <$> entry r' n = Some (Some (ConstLevel lv))) ∧
  (∀ n info, entry r n = Some info →
             infoAtomicLogger <$> entry r' n = Some (infoAtomicLogger info)).
Proof.
  intros Hwf Hk Ht r'.
  assert (note ∈ notesOf s) as Hnote.
  { apply notesOf_elem. by exists k, t. }
  assert ((0 <? length (notesOf s)) = true) as Hlen.
  { destruct (notesOf s); [by apply elem_of_nil in Hnote|done]. }
  assert (r' = beforeRefresh r s) as Hr'.
  { unfold r'. by rewrite LevelsString_cases, Hlen. }
  split; [by rewrite LevelsString_cases, Hlen|]. split; [done|].
  rewrite Hr'. split; [apply beforeRefresh_settings|]. split.
  - intros n lv Hne Hn.
    by destruct (beforeRefresh_named r s n lv Hwf Hne Hn) as (af & -> & _).
  - intros n info. by apply beforeRefresh_handles.
Qed.

Lemma LevelsString_notes_return_before_rebuild_witness :
  let r := (NewLogger NewFactory "http").1 in
  let res := LevelsString r "*=INF,http=DBG,sql=bogus" in
  res.2 = Some "errors parsing config string: bogus not recognized level, defaulting to warn" ∧
  defaultLevel res.1 = InfoLevel ∧
  levelEnabler <$> entry res.1 "http" = Some (Some (ConstLevel DebugLevel)) ∧
  infoAtomicLogger <$> entry res.1 "http" =
    Some (mkAtomic (Some (mkSugared (NewLTSVEncoder NewEncoderConfig) Stdout
                            AtomicDefault false "http"))).
Proof.
  intros r res.
  assert (wf r) as Hwf.
  { unfold r. rewrite NewLogger_unfold. apply wf_getLoggerInfo, wf_NewFactory. }
  destruct (LevelsString_notes_return_before_rebuild r
              "*=INF,http=DBG,sql=bogus" "sql" "bogus"
              "bogus not recognized level, defaulting to warn" Hwf)
    as (Herr & _ & Hd & Hnamed & Hold); [reflexivity..|].
  fold res in Herr, Hd, Hnamed, Hold.
  split; [exact Herr|]. split; [exact Hd|]. split.
  - apply (Hnamed "http" DebugLevel); [discriminate|reflexivity].
  - apply (Hold "http" (mkInfo None (mkAtomic (Some (mkSugared
             (NewLTSVEncoder NewEncoderConfig) Stdout AtomicDefault false "http"))))).
    reflexivity.
Defined.

(** The second example of the doc comment of [LevelsString], "*,sql=WRN",
    on a registry that has the logger "sql": the override is stored, the
    instance that "sql" publishes is still the one that follows the default
    level, which is now [AllLevel]. *)
Example LevelsString_doc_example_sql_WRN :
  let r := (NewLogger NewFactory "sql").1 in
  let res := LevelsString r "*,sql=WRN" in
  res.2 = Some "errors parsing config string: WRN is deprecated, use INF" ∧
  defaultLevel res.1 = AllLevel ∧
  levelEnabler <$> entry res.1 "sql" = Some (Some (ConstLevel WarnLevel)) ∧
  effectiveLevel res.1 <$> loggerGet res.1 (NewLogger NewFactory "sql").2 = Some AllLevel.
Proof. vm_compute. done. Qed.

(** * Further properties of the registry *)

Section RegistryMore.
Context `{Env}.

Lemma alterAll_Forall (P : loggerInfo → Prop) f l h :
  (∀ n x, P x → P (f n x)) → Forall P h → Forall P (alterAll f h l).
Proof.
  intros Hf. revert h. induction l as [|e l IH]; intros h Hh; [done|].
  unfold alterAll in *. simpl. apply IH, Forall_alter; eauto.
Qed.

Lemma keeps_refl r : keeps r r.
Proof. by split. Qed.

Lemma keeps_trans r1 r2 r3 : keeps r1 r2 → keeps r2 r3 → keeps r1 r3.
Proof. intros [? ?] [? ?]. split; [eauto|lia]. Qed.

Lemma keeps_same r r' : infos r' = infos r → keeps r r'.
Proof. intros Hi. unfold keeps, populated. by rewrite Hi. Qed.

Lemma keeps_refreshLoggers r : keeps r (refreshLoggers r).
Proof.
  split; [|by rewrite refreshLoggers_length].
  unfold populated. rewrite refreshLoggers_eq. simpl.
  apply alterAll_Forall. intros n x _. by eexists.
Qed.

Lemma keeps_resetAll levelMap r : keeps r (resetAll levelMap r).
Proof.
  split; [|unfold resetAll; simpl; by rewrite alterAll_length].
  unfold populated, resetAll. simpl. apply alterAll_Forall.
  intros n x Hx. unfold resetTo. by destruct (levelMap !! n).
Qed.

Lemma keeps_getLoggerInfo r name : keeps r (getLoggerInfo r name).1.
Proof.
  split; [|apply getLoggerInfo_length].
  destruct (loggers r !! name) as [p|] eqn:Hn.
  { by rewrite (getLoggerInfo_found _ _ _ Hn). }
  unfold populated. destruct (getLoggerInfo_fresh_infos _ _ Hn) as [-> _].
  intros Hp. apply Forall_app. split; [done|].
  apply Forall_singleton. by eexists.
Qed.

Lemma keeps_setLevel r name l : keeps r (setLevel r name l).
Proof.
  eapply keeps_trans; [apply keeps_getLoggerInfo|].
  rewrite setLevel_unfold. split.
  - unfold populated. simpl. intros Hp. unfold storeEnabler.
    apply Forall_alter; [done|]. by intros x _ Hx.
  - simpl. unfold storeEnabler. by rewrite length_alter.
Qed.

Lemma keeps_setAll l r : keeps r (setAll r l).
Proof.
  unfold setAll. apply (foldl_preserves (keeps r)); [|apply keeps_refl].
  intros a kv Ha. eapply keeps_trans; [done|apply keeps_setLevel].
Qed.

Lemma keeps_beforeRefresh r s : keeps r (beforeRefresh r s).
Proof.
  destruct (beforeRefresh_start r s) as (r1 & -> & _ & _ & _ & _ & _ & Hi).
  eapply keeps_trans; [by apply (keeps_same r r1)|].
  eapply keeps_trans; [apply keeps_resetAll|apply keeps_setAll].
Qed.

Lemma keeps_LevelsString r s : keeps r (LevelsString r s).1.
Proof.
  rewrite LevelsString_cases. destruct (0 <? length (notesOf s)); simpl.
  - apply keeps_beforeRefresh.
  - eapply keeps_trans; [apply keeps_beforeRefresh|apply keeps_refreshLoggers].
Qed.

Lemma keeps_run op r : keeps r (run op r).
Proof.
  destruct op as [name|name l|l|e|w|b|s|cfg|[prior]]; simpl.
  - rewrite NewLogger_unfold. apply keeps_getLoggerInfo.
  - eapply keeps_trans; [apply keeps_setLevel|apply keeps_refreshLoggers].
  - by apply keeps_same.
  - eapply keeps_trans; [by apply (keeps_same r (withEncoder r e))|apply keeps_refreshLoggers].
  - eapply keeps_trans; [by apply (keeps_same r (withOut r w))|apply keeps_refreshLoggers].
  - eapply keeps_trans; [by apply (keeps_same r (withAddCaller r b))|apply keeps_refreshLoggers].
  - apply keeps_LevelsString.
  - destruct (Configure_cases r cfg) as [->|(e & b & ->)]; [by apply keeps_same|].
    eapply keeps_trans; [by apply (keeps_same r (SetDefaultLevel r (DefaultLevel cfg)))|].
    eapply keeps_trans; [apply keeps_LevelsString|].
    eapply keeps_trans; [|apply keeps_refreshLoggers]. by apply keeps_same.
  - eapply keeps_trans; [by apply (keeps_same r (withOut r prior))|apply keeps_refreshLoggers].
Qed.

Lemma keeps_runAll ops r : keeps r (runAll ops r).
Proof.
  unfold runAll. apply (foldl_preserves (keeps r)); [|apply keeps_refl].
  intros a op Ha. eapply keeps_trans; [done|apply keeps_run].
Qed.

End RegistryMore.

Section RegistryNames.
Context `{Env}.

Lemma named_same r r' :
  loggers r' = loggers r → infos r' = infos r → named r → named r'.
Proof. intros Hl Hi Hn n info lg. rewrite (entry_same r r') by done. apply Hn. Qed.

Lemma named_refreshLoggers r : wf r → named (refreshLoggers r).
Proof.
  intros Hwf n info lg. rewrite entry_refreshLoggers by done.
  destruct (entry r n) as [info0|]; [|done]. simpl. by intros [= <-] [= <-].
Qed.

Lemma named_resetAll levelMap r : wf r → named r → named (resetAll levelMap r).
Proof.
  intros Hwf Hn n info lg. rewrite entry_resetAll by done.
  destruct (entry r n) as [info0|] eqn:Hi; [|done]. simpl. intros [= <-].
  unfold resetTo. destruct (levelMap !! n); simpl; by apply Hn.
Qed.

Lemma named_getLoggerInfo r name : wf r → named r → named (getLoggerInfo r name).1.
Proof.
  intros Hwf Hn n info lg. destruct (decide (n = name)) as [->|Hne].
  - rewrite entry_getLoggerInfo_same by done.
    destruct (entry r name) as [info0|] eqn:Hi; simpl.
    + intros [= <-]. by apply Hn.
    + by intros [= <-] [= <-].
  - rewrite entry_getLoggerInfo_other by done. apply Hn.
Qed.

Lemma named_setLevel r name l : wf r → named r → named (setLevel r name l).
Proof.
  intros Hwf Hn n info lg. destruct (decide (n = name)) as [->|Hne].
  - rewrite entry_setLevel_same by done.
    destruct (entry r name) as [info0|] eqn:Hi; simpl.
    + intros [= <-]. simpl. by apply Hn.
    + by intros [= <-] [= <-].
  - rewrite entry_setLevel_other by done. apply Hn.
Qed.

Lemma named_setAll l r : wf r → named r → named (setAll r l).
Proof.
  intros Hwf Hn. unfold setAll.
  apply (foldl_preserves (λ r', wf r' ∧ named r')); [|done].
  intros a kv [Ha1 Ha2]. split; [by apply wf_setLevel|by apply named_setLevel].
Qed.

Lemma named_beforeRefresh r s : wf r → named r → named (beforeRefresh r s).
Proof.
  intros Hwf Hn.
  destruct (beforeRefresh_start r s) as (r1 & -> & _ & _ & _ & _ & Hl & Hi).
  assert (wf r1) as Hwf1 by (apply (wf_same r); [done|by rewrite Hi|done]).
  apply named_setAll; [by apply wf_resetAll|].
  apply named_resetAll; [done|]. by apply (named_same r).
Qed.

Lemma named_LevelsString r s : wf r → named r → named (LevelsString r s).1.
Proof.
  intros Hwf Hn. rewrite LevelsString_cases.
  destruct (0 <? length (notesOf s)); simpl.
  - by apply named_beforeRefresh.
  - by apply named_refreshLoggers, wf_beforeRefresh.
Qed.

Lemma named_run op r : wf r → named r → named (run op r).
Proof.
  intros Hwf Hn. destruct (rebuilds op) eqn:Hreb.
  { destruct (run_rebuilds op r Hreb) as (r0 & -> & Hwf0 & _).
    by apply named_refreshLoggers, Hwf0. }
  destruct op as [name | | l | | | | s | cfg |]; try done; unfold run.
  - rewrite NewLogger_unfold. by apply named_getLoggerInfo.
  - by apply named_LevelsString.
  - destruct (Configure_cases r cfg) as [->|(e & b & ->)].
    { apply (named_same r); [reflexivity..|done]. }
    apply named_refreshLoggers.
    apply (wf_same (LevelsString (SetDefaultLevel r (DefaultLevel cfg)) (Levels cfg)).1);
      [done..|].
    apply wf_LevelsString. by apply (wf_same r).
Qed.

Lemma named_runAll ops r : wf r → named r → wf (runAll ops r) ∧ named (runAll ops r).
Proof.
  intros Hwf Hn. unfold runAll.
  apply (foldl_preserves (λ r', wf r' ∧ named r')); [|done].
  intros a op [Ha1 Ha2]. split; [by apply run_wf_extends|by apply named_run].
Qed.

Lemma populated_NewFactory : populated NewFactory.
Proof. constructor. Qed.

Lemma named_NewFactory : named NewFactory.
Proof. intros n info lg. unfold entry. simpl. by rewrite lookup_empty. Qed.

End RegistryNames.

(** X1.  Every registry that the operations build from [NewFactory] is
    well-formed: each name of the map points at an allocated struct, no two
    names share a struct, every allocated struct has an instance in its
    handle, and the instance published for a name carries that name. *)
Theorem reachable_registry_invariant `{Env} (ops : list adminOp) (n : string) :
  let r := runAll ops NewFactory in
  wf r ∧ populated r ∧
  (is_Some (loggers r !! n) →
   ∃ info lg, entry r n = Some info ∧ get (infoAtomicLogger info) = Some lg ∧
              loggerName lg = n).
Proof.
  intros r.
  destruct (named_runAll ops NewFactory wf_NewFactory named_NewFactory) as [Hwf Hn].
  destruct (keeps_runAll ops NewFactory) as [Hp _].
  specialize (Hp populated_NewFactory). fold r in Hwf, Hn, Hp.
  split; [done|]. split; [done|]. intros [p Hp'].
  destruct (entry_is_Some r n p Hwf Hp') as [info Hi].
  assert (is_Some (get (infoAtomicLogger info))) as [lg Hlg].
  { unfold entry in Hi. rewrite Hp' in Hi. simpl in Hi.
    by apply (Forall_lookup_1 _ _ _ _ Hp Hi). }
  exists info, lg. split; [done|]. split; [done|]. by apply (Hn n info).
Qed.

Lemma reachable_registry_invariant_witness :
  let r := runAll [OpNewLogger "http"; OpLevelsString "sql=bogus,db"; OpSetAddCaller true]
                  NewFactory in
  ∃ info lg, entry r "sql" = Some info ∧ get (infoAtomicLogger info) = Some lg ∧
             loggerName lg = "sql".
Proof.
  intros r.
  apply (reachable_registry_invariant
           [OpNewLogger "http"; OpLevelsString "sql=bogus,db"; OpSetAddCaller true] "sql").
  vm_compute. eauto.
Defined.

(** X2.  A facade obtained from [NewLogger] on a registry built by the
    operations always finds an instance in its handle, whatever operations
    run afterwards: [get] does not panic, and each log method reaches
    zap. *)
Theorem facade_handle_never_empty `{Env} (ops1 ops2 : list adminOp) (name : string)
    (mt : logMethod) (m : mem) (msg : string) (args : list Arg) :
  let r1 := runAll ops1 NewFactory in
  let l := (NewLogger r1 name).2 in
  let r2 := runAll ops2 (NewLogger r1 name).1 in
  is_Some (loggerGet r2 l) ∧ is_Some (invoke mt r2 m l msg args).2.
Proof.
  intros r1 l r2.
  assert (is_Some (loggerGet r2 l)) as [lg Hlg].
  { destruct (keeps_runAll ops1 NewFactory) as [Hp1 _].
    specialize (Hp1 populated_NewFactory). fold r1 in Hp1.
    destruct (keeps_getLoggerInfo r1 name) as [Hp2 _]. specialize (Hp2 Hp1).
    destruct (keeps_runAll ops2 (NewLogger r1 name).1) as [Hp3 Hlen].
    rewrite NewLogger_unfold in Hp3, Hlen. simpl in Hp3, Hlen. specialize (Hp3 Hp2).
    destruct (runAll_wf_extends ops1 NewFactory) as [Hwf1 _].
    specialize (Hwf1 wf_NewFactory). fold r1 in Hwf1.
    destruct (wf_getLoggerInfo r1 name Hwf1) as [Hv _].
    pose proof (Hv name _ (getLoggerInfo_lookup r1 name)) as Hlt.
    unfold r2, l. rewrite NewLogger_unfold. simpl. unfold loggerGet. simpl.
    destruct (lookup_lt_is_Some_2 (infos (runAll ops2 (getLoggerInfo r1 name).1))
                (getLoggerInfo r1 name).2) as [info Hi]; [lia|].
    rewrite Hi. simpl. by apply (Forall_lookup_1 _ _ _ _ Hp3 Hi). }
  split; [by eexists|]. rewrite invoke_logw. unfold logw. rewrite Hlg.
  destruct (0 <? len (context l)); [|by eexists].
  destruct (append m (context l) (normalizeArgs args)). by eexists.
Qed.

(** X3.  No operation removes an entry or binds a name to another struct,
    and the store of structs never shrinks: a name bound before a run of
    operations is bound to the same pointer after it. *)
Theorem registry_entries_persist `{Env} (ops : list adminOp) (r : Factory)
    (n : string) (p : ptr) :
  loggers r !! n = Some p →
  loggers (runAll ops r) !! n = Some p ∧
  length (infos r) ≤ length (infos (runAll ops r)).
Proof.
  intros Hn. split.
  - by apply (runAll_wf_extends ops r).
  - apply keeps_runAll.
Qed.

Lemma registry_entries_persist_witness :
  let r := (NewLogger NewFactory "http").1 in
  loggers (runAll [OpLevelsString "*=DBG,-sql"; OpSetOut None; OpNewLogger "db"] r)
    !! "http" = Some 0.
Proof.
  intros r.
  apply (registry_entries_persist
           [OpLevelsString "*=DBG,-sql"; OpSetOut None; OpNewLogger "db"] r "http" 0).
  reflexivity.
Defined.

Section Rebuild.
Context `{Env}.

(** A second pass over the entries absorbs a first one that it
    overwrites. *)
Lemma alterAll_absorb (F G : string → loggerInfo → loggerInfo) l h :
  NoDup l.*2 → (∀ n x, F n (G n x) = F n x) →
  alterAll F (alterAll G h l) l = alterAll F h l.
Proof.
  intros Hnd HFG. apply list_eq. intros i.
  destruct (decide (i ∈ l.*2)) as [Hin|Hin].
  - apply list_elem_of_fmap in Hin as ([n p] & -> & Hin). simpl.
    rewrite !(alterAll_lookup_in _ _ _ n p) by done.
    destruct (h !! p); simpl; [|done]. by rewrite HFG.
  - by rewrite !alterAll_lookup_notin.
Qed.

(** A rebuild after a pass that kept the enablers and the settings that
    [newLogger] reads. *)
Lemma refreshLoggers_absorb r r' G :
  wf r → loggers r' = loggers r →
  infos r' = alterAll G (infos r) (range (loggers r)) →
  (∀ n x, levelEnabler (G n x) = levelEnabler x) →
  refreshLoggers r' =
    withInfos r' (alterAll (republish r') (infos r) (range (loggers r))).
Proof.
  intros Hwf Hl Hi HG. rewrite refreshLoggers_eq, Hl, Hi. f_equal.
  apply alterAll_absorb; [by apply range_NoDup_ptrs|].
  intros n x. unfold republish, newLogger. simpl. by rewrite HG.
Qed.

Lemma refreshLoggers_twice r :
  wf r → refreshLoggers (refreshLoggers r) = refreshLoggers r.
Proof.
  intros Hwf.
  rewrite (refreshLoggers_absorb r (refreshLoggers r) (republish r)); [|done|..].
  - by rewrite (refreshLoggers_eq r).
  - apply refreshLoggers_loggers.
  - by rewrite refreshLoggers_eq.
  - done.
Qed.

Lemma refreshLoggers_enablers r p :
  levelEnabler <$> infos (refreshLoggers r) !! p = levelEnabler <$> infos r !! p.
Proof.
  rewrite refreshLoggers_eq. simpl. generalize (infos r) as h.
  induction (range (loggers r)) as [|e l IH]; intros h; [done|].
  unfold alterAll in *. simpl. rewrite IH.
  destruct (decide (e.2 = p)) as [<-|Hne].
  - rewrite list_lookup_alter_eq. by destruct (h !! e.2).
  - by rewrite list_lookup_alter_ne.
Qed.

End Rebuild.

(** X4.  [refreshLoggers] is idempotent, and it writes handles only: the
    map, the settings and the enabler of every struct are as before. *)
Theorem refreshLoggers_idempotent `{Env} (r : Factory) :
  wf r →
  refreshLoggers (refreshLoggers r) = refreshLoggers r ∧
  loggers (refreshLoggers r) = loggers r ∧
  sameSettings r (refreshLoggers r) ∧
  ∀ p, levelEnabler <$> infos (refreshLoggers r) !! p = levelEnabler <$> infos r !! p.
Proof.
  intros Hwf. split; [by apply refreshLoggers_twice|].
  split; [apply refreshLoggers_loggers|].
  split; [apply refreshLoggers_sameSettings|apply refreshLoggers_enablers].
Qed.

Lemma refreshLoggers_idempotent_witness :
  let r := (LevelsString (SetLevel NewFactory "sql" ErrorLevel) "http=bogus").1 in
  refreshLoggers (refreshLoggers r) = refreshLoggers r.
Proof.
  intros r. apply (refreshLoggers_idempotent r).
  unfold r, SetLevel.
  apply wf_LevelsString, wf_refreshLoggers, wf_setLevel, wf_NewFactory.
Defined.

(** X5.  After [SetLevel], [SetEncoder], [SetOut], [SetAddCaller] or the
    closure of [SetOut], every entry publishes the instance that
    [newLogger] builds from the settings and the entry's enabler of that
    moment. *)
Theorem rebuilding_operations_publish `{Env} (op : adminOp) (r : Factory) (n : string) :
  wf r → rebuilds op = true → is_Some (loggers (run op r) !! n) →
  published (run op r) n.
Proof.
  intros Hwf Hreb Hn.
  destruct (run_rebuilds op r Hreb) as (r0 & Hrun & Hwf0 & _).
  rewrite Hrun in *. rewrite refreshLoggers_loggers in Hn.
  apply published_refreshLoggers; [by apply Hwf0|done].
Qed.

Lemma rebuilding_operations_publish_witness :
  let r := (LevelsString (NewLogger NewFactory "http").1 "http=DBG,sql=bogus").1 in
  ¬ published r "http" ∧ published (run (OpSetAddCaller false) r) "http".
Proof.
  intros r. split.
  - intros (info & Hi & Hget). vm_compute in Hi. injection Hi as <-.
    vm_compute in Hget. discriminate.
  - apply (rebuilding_operations_publish (OpSetAddCaller false) r "http").
    + unfold r. rewrite NewLogger_unfold.
      apply wf_LevelsString, wf_getLoggerInfo, wf_NewFactory.
    + reflexivity.
    + vm_compute. eauto.
Defined.

Section Setters.
Context `{Env}.

(** The entries after a rebuild of a registry that differs from [r] in
    its settings only. *)
Lemma entry_rebuilt_settings r r0 n info :
  wf r → loggers r0 = loggers r → infos r0 = infos r → entry r n = Some info →
  entry (refreshLoggers r0) n =
    Some (mkInfo (levelEnabler info)
            (mkAtomic (Some (mkSugared (getEncoder r0) (getOut r0)
                               (default AtomicDefault (levelEnabler info))
                               (addCaller r0) n)))).
Proof.
  intros Hwf Hl Hi He. apply entry_refresh_built.
  - by apply (wf_same r); [|rewrite Hi|].
  - by rewrite (entry_same r r0).
Qed.

End Setters.

(** X6.  [SetEncoder], [SetOut] and [SetAddCaller] each store their one
    setting, leave the other settings, the default level and the map as
    they were, keep the enabler of every entry, and publish for every entry
    an instance built with the new setting. *)
Theorem setters_store_and_rebuild `{Env} (r : Factory) (e : option Encoder)
    (w : option Writer) (b : bool) (n : string) (info : loggerInfo) :
  wf r → entry r n = Some info →
  let built r' :=
    Some (mkInfo (levelEnabler info)
            (mkAtomic (Some (mkSugared (getEncoder r') (getOut r')
                               (default AtomicDefault (levelEnabler info))
                               (addCaller r') n)))) in
  let others r' :=
    defaultLevel r' = defaultLevel r ∧ loggers r' = loggers r in
  (encoder (SetEncoder r e) = e ∧ out (SetEncoder r e) = out r ∧
   addCaller (SetEncoder r e) = addCaller r ∧ others (SetEncoder r e) ∧
   entry (SetEncoder r e) n = built (SetEncoder r e)) ∧
  (out (SetOut r w).1 = w ∧ encoder (SetOut r w).1 = encoder r ∧
   addCaller (SetOut r w).1 = addCaller r ∧ others (SetOut r w).1 ∧
   entry (SetOut r w).1 n = built (SetOut r w).1) ∧
  (addCaller (SetAddCaller r b) = b ∧ encoder (SetAddCaller r b) = encoder r ∧
   out (SetAddCaller r b) = out r ∧ others (SetAddCaller r b) ∧
   entry (SetAddCaller r b) n = built (SetAddCaller r b)).
Proof.
  intros Hwf He built others.
  assert (∀ r0, loggers r0 = loggers r → infos r0 = infos r →
            sameSettings r0 (refreshLoggers r0) ∧
            loggers (refreshLoggers r0) = loggers r ∧
            entry (refreshLoggers r0) n = built (refreshLoggers r0)) as Hgen.
  { intros r0 Hl Hi. pose proof (refreshLoggers_sameSettings r0) as Hs.
    split; [done|]. split; [by rewrite refreshLoggers_loggers|].
    rewrite (entry_rebuilt_settings r r0 n info) by done.
    destruct Hs as (_ & Hs1 & Hs2 & Hs3). unfold built, getEncoder, getOut.
    by rewrite Hs1, Hs2, Hs3. }
  split; [|split].
  - destruct (Hgen (withEncoder r e)) as ((Hd & He' & Ho & Ha) & Hl & Hb); [done..|].
    unfold SetEncoder, others. by rewrite Hd, He', Ho, Ha.
  - destruct (Hgen (withOut r w)) as ((Hd & He' & Ho & Ha) & Hl & Hb); [done..|].
    unfold SetOut, others. simpl. by rewrite Hd, He', Ho, Ha.
  - destruct (Hgen (withAddCaller r b)) as ((Hd & He' & Ho & Ha) & Hl & Hb); [done..|].
    unfold SetAddCaller, others. by rewrite Hd, He', Ho, Ha.
Qed.

Lemma setters_store_and_rebuild_witness :
  let r := SetLevel NewFactory "sql" ErrorLevel in
  encoder (SetEncoder r (Some (UserEncoder 5))) = Some (UserEncoder 5) ∧
  levelEnabler <$> entry (SetEncoder r (Some (UserEncoder 5))) "sql" =
    Some (Some (ConstLevel ErrorLevel)).
Proof.
  intros r.
  assert (wf r) as Hwf.
  { unfold r, SetLevel. apply wf_refreshLoggers, wf_setLevel, wf_NewFactory. }
  destruct (setters_store_and_rebuild r (Some (UserEncoder 5)) None false "sql"
              (mkInfo (Some (ConstLevel ErrorLevel))
                 (mkAtomic (Some (mkSugared (NewLTSVEncoder NewEncoderConfig) Stdout
                                    (ConstLevel ErrorLevel) false "sql")))) Hwf)
    as ((He & _ & _ & _ & Hent) & _); [reflexivity|].
  split; [exact He|]. rewrite Hent. reflexivity.
Defined.

(** X7.  Calling the closure of [SetOut] right after the [SetOut] gives
    the registry that a rebuild of the original one gives, and calling a
    closure twice gives what calling it once gives. *)
Theorem SetOut_restore_round_trip `{Env} (r : Factory) (w : option Writer)
    (fn : restorer) :
  wf r →
  call (SetOut r w).2 (SetOut r w).1 = refreshLoggers r ∧
  call fn (call fn r) = call fn r.
Proof.
  intros Hwf. split.
  - simpl.
    rewrite (refreshLoggers_absorb r _ (republish (withOut r w))); [|done|..].
    + rewrite (refreshLoggers_eq r), (refreshLoggers_eq (withOut r w)). done.
    + by rewrite refreshLoggers_eq.
    + by rewrite refreshLoggers_eq.
    + done.
  - destruct fn as [prior]. simpl.
    assert (withOut (refreshLoggers (withOut r prior)) prior =
              refreshLoggers (withOut r prior)) as ->.
    { by rewrite refreshLoggers_eq. }
    apply refreshLoggers_twice. by apply (wf_same r).
Qed.

Lemma SetOut_restore_round_trip_witness :
  let r := SetLevel NewFactory "sql" ErrorLevel in
  call (SetOut r (Some (Sink 4))).2 (SetOut r (Some (Sink 4))).1 = refreshLoggers r.
Proof.
  intros r.
  assert (wf r) as Hwf.
  { unfold r, SetLevel. apply wf_refreshLoggers, wf_setLevel, wf_NewFactory. }
  destruct (SetOut_restore_round_trip r (Some (Sink 4)) (RestoreOut None) Hwf) as [H1 _].
  exact H1.
Defined.

(** X8.  [SetLevel] leaves the named entry with the level as its override
    and an instance built with that constant level, whether the entry
    existed or not; every other entry keeps its enabler and is rebuilt; an
    existing name costs no allocation; the settings are untouched; and of
    two [SetLevel] on one name the second decides the entry. *)
Theorem SetLevel_sets_override `{Env} (r : Factory) (name : string) (l l2 : Level) :
  wf r →
  let r' := SetLevel r name l in
  entry r' name =
    Some (mkInfo (Some (ConstLevel l))
            (mkAtomic (Some (mkSugared (getEncoder r) (getOut r) (ConstLevel l)
                               (addCaller r) name)))) ∧
  (∀ n info, n ≠ name → entry r n = Some info →
     entry r' n =
       Some (mkInfo (levelEnabler info)
               (mkAtomic (Some (mkSugared (getEncoder r) (getOut r)
                                  (default AtomicDefault (levelEnabler info))
                                  (addCaller r) n))))) ∧
  (is_Some (loggers r !! name) →
     loggers r' = loggers r ∧ length (infos r') = length (infos r)) ∧
  sameSettings r r' ∧
  entry (SetLevel r' name l2) name = entry (SetLevel r name l2) name.
Proof.
  intros Hwf r'.
  pose proof (wf_setLevel r name l Hwf) as Hwf0.
  pose proof (setLevel_settings r name l) as Hs0.
  pose proof (refreshLoggers_sameSettings (setLevel r name l)) as Hs1.
  assert (sameSettings r r') as Hsame.
  { destruct Hs0 as (? & ? & ? & ?), Hs1 as (? & ? & ? & ?).
    unfold sameSettings, r', SetLevel. repeat split; congruence. }
  assert (∀ r0 l0, wf r0 →
            entry (SetLevel r0 name l0) name =
              Some (mkInfo (Some (ConstLevel l0))
                      (mkAtomic (Some (mkSugared (getEncoder r0) (getOut r0)
                                         (ConstLevel l0) (addCaller r0) name))))) as Hown.
  { intros r0 l0 Hwfr0. unfold SetLevel.
    rewrite (entry_refresh_built _ name _ (wf_setLevel r0 name l0 Hwfr0)
               (entry_setLevel_same r0 name l0 Hwfr0)). simpl.
    destruct (setLevel_settings r0 name l0) as (_ & He & Ho & Ha).
    unfold getEncoder, getOut. by rewrite He, Ho, Ha. }
  split; [by apply Hown|]. split; [|split; [|split; [done|]]].
  - intros n info Hne Hi. unfold r', SetLevel.
    rewrite (entry_refresh_built _ n info Hwf0)
      by (by rewrite entry_setLevel_other).
    destruct Hs0 as (_ & He & Ho & Ha). unfold getEncoder, getOut.
    by rewrite He, Ho, Ha.
  - intros [p Hp]. unfold r', SetLevel.
    rewrite refreshLoggers_loggers, refreshLoggers_length, setLevel_unfold.
    rewrite (getLoggerInfo_found _ _ _ Hp). simpl. split; [done|].
    unfold storeEnabler. by rewrite length_alter.
  - rewrite !Hown by (done || by apply wf_refreshLoggers).
    destruct Hsame as (_ & He & Ho & Ha). unfold getEncoder, getOut.
    by rewrite He, Ho, Ha.
Qed.

Lemma SetLevel_sets_override_witness :
  let r := (NewLogger NewFactory "sql").1 in
  loggers (SetLevel r "sql" DebugLevel) = loggers r ∧
  length (infos (SetLevel r "sql" DebugLevel)) = 1.
Proof.
  intros r.
  assert (wf r) as Hwf.
  { unfold r. rewrite NewLogger_unfold. apply wf_getLoggerInfo, wf_NewFactory. }
  destruct (SetLevel_sets_override r "sql" DebugLevel ErrorLevel Hwf)
    as (_ & _ & Hsame & _).
  destruct Hsame as [Hl Hi]; [vm_compute; eauto|].
  split; [exact Hl|]. rewrite Hi. reflexivity.
Defined.

(** X9.  The level queries of a facade answer from the override of its
    entry when the published instance was built with one, and otherwise
    from the default level as it is at the time of the query:
    [SetDefaultLevel] takes effect on them without a rebuild. *)
Theorem level_queries_follow_override_or_default `{Env} (r : Factory) (n : string)
    (l : logger) (info : loggerInfo) (d : Level) :
  loggers r !! n = Some (loggerAtomic l) →
  entry r n = Some info →
  get (infoAtomicLogger info) = Some (newLogger r n info) →
  let lvl := match levelEnabler info with
             | Some (ConstLevel lv) => lv
             | _ => d
             end in
  let r' := SetDefaultLevel r d in
  infos r' = infos r ∧
  IsDebug r' l = Some (lvl <=? -1)%Z ∧
  IsTrace r' l = Some (lvl <=? -1)%Z ∧
  IsInfo r' l = Some (lvl <=? 0)%Z ∧
  IsWarn r' l = Some (lvl <=? 1)%Z.
Proof.
  intros Hn Hi Hget lvl r'.
  assert (loggerGet r' l = Some (newLogger r n info)) as Hlg.
  { rewrite (loggerGet_entry r' n) by done.
    rewrite (entry_same r r') by done. by rewrite Hi. }
  assert (effectiveLevel r' (newLogger r n info) = lvl) as Heff.
  { unfold effectiveLevel, newLogger, lvl. simpl.
    by destruct (levelEnabler info) as [[lv|]|]. }
  unfold IsDebug, IsTrace, IsInfo, IsWarn, Enabled.
  rewrite Hlg. simpl. rewrite Heff. done.
Qed.

Lemma level_queries_follow_override_or_default_witness :
  let r := (NewLogger NewFactory "http").1 in
  let l := (NewLogger NewFactory "http").2 in
  IsInfo r l = Some false ∧
  IsInfo (SetDefaultLevel r InfoLevel) l = Some true ∧
  IsDebug (SetDefaultLevel r InfoLevel) l = Some false.
Proof.
  intros r l. split; [reflexivity|].
  destruct (level_queries_follow_override_or_default r "http" l
              (mkInfo None (mkAtomic (Some (newLogger r "http" (mkInfo None (mkAtomic None))))))
              InfoLevel) as (_ & Hd & _ & Hi & _); [reflexivity..|].
  split; [exact Hi|exact Hd].
Defined.

(** X10.  The level queries are monotone: a facade that answers true to
    [IsDebug] answers true to [IsInfo], one that answers true to [IsInfo]
    answers true to [IsWarn], and [IsTrace] always answers as [IsDebug]. *)
Theorem level_queries_monotone `{Env} (r : Factory) (l : logger) :
  IsTrace r l = IsDebug r l ∧
  (IsDebug r l = Some true → IsInfo r l = Some true) ∧
  (IsInfo r l = Some true → IsWarn r l = Some true).
Proof.
  unfold IsTrace, IsDebug, IsInfo, IsWarn, Enabled.
  destruct (loggerGet r l) as [lg|]; simpl; [|done].
  split; [done|]. split; intros [= Hle%Z.leb_le]; f_equal; apply Z.leb_le;
    unfold zapDebugLevel, zapInfoLevel, zapWarnLevel in *; lia.
Qed.

Lemma level_queries_monotone_witness :
  let r := SetLevel NewFactory "http" DebugLevel in
  let l := (NewLogger r "http").2 in
  IsInfo r l = Some true ∧ IsWarn r l = Some true.
Proof.
  intros r l.
  destruct (level_queries_monotone r l) as (_ & H1 & H2).
  assert (IsInfo r l = Some true) as Hi by (apply H1; reflexivity).
  split; [exact Hi|exact (H2 Hi)].
Defined.

(** * Further properties of the level strings *)

Section AbbreviationsMore.
Context `{Env}.

(** The switch of [levelForAbbr], read on the lower-cased abbreviation. *)
Lemma levelForAbbr_note_iff abbr :
  (levelForAbbr abbr).2 = None ↔ one_of (ToLower abbr) cleanAbbrs = true.
Proof.
  unfold levelForAbbr. generalize (ToLower abbr) as s. intros s.
  repeat match goal with
  | |- context [if one_of s ?l then _ else _] =>
      let E := fresh "E" in
      destruct (one_of s l) eqn:E;
        [apply one_of_true in E;
         repeat (apply elem_of_cons in E as [->|E]);
         try (by apply elem_of_nil in E); by split|]
  end.
  simpl. split; [done|]. intros Hc%one_of_true.
  repeat (apply elem_of_cons in Hc as [->|Hc]); try (by apply elem_of_nil in Hc);
    discriminate.
Qed.

Lemma levelForAbbr_level_cases abbr :
  (levelForAbbr abbr).1 ∈
    [AllLevel; OffLevel; DebugLevel; InfoLevel; WarnLevel; ErrorLevel; PanicLevel].
Proof.
  unfold levelForAbbr.
  repeat match goal with
  | |- context [if ?b then _ else _] => destruct b
  end; simpl; rewrite !elem_of_cons; auto 10.
Qed.

End AbbreviationsMore.

(** X11.  [levelForAbbr] returns no note exactly when the lower-cased
    abbreviation is one of "", "off", "dbg", "debug", "inf", "info", "err",
    "error"; the empty abbreviation gives [AllLevel], "off" [OffLevel],
    "dbg"/"debug" [DebugLevel], "inf"/"info" [InfoLevel], "err"/"error"
    [ErrorLevel]; "trc"/"trace" give [DebugLevel] with a note; and the
    level is always one of the seven constants. *)
Theorem levelForAbbr_clean_abbreviations `{Env} (abbr : string) :
  ((levelForAbbr abbr).2 = None ↔ one_of (ToLower abbr) cleanAbbrs = true) ∧
  (one_of (ToLower abbr) [""] = true → levelForAbbr abbr = (AllLevel, None)) ∧
  (one_of (ToLower abbr) ["off"] = true → levelForAbbr abbr = (OffLevel, None)) ∧
  (one_of (ToLower abbr) ["dbg"; "debug"] = true →
     levelForAbbr abbr = (DebugLevel, None)) ∧
  (one_of (ToLower abbr) ["inf"; "info"] = true →
     levelForAbbr abbr = (InfoLevel, None)) ∧
  (one_of (ToLower abbr) ["err"; "error"] = true →
     levelForAbbr abbr = (ErrorLevel, None)) ∧
  (one_of (ToLower abbr) ["trc"; "trace"] = true →
     levelForAbbr abbr = (DebugLevel, Some "TRC is deprecated, mapped to DEBUG")) ∧
  (levelForAbbr abbr).1 ∈
    [AllLevel; OffLevel; DebugLevel; InfoLevel; WarnLevel; ErrorLevel; PanicLevel].
Proof.
  split; [apply levelForAbbr_note_iff|].
  repeat (split; [intros Hs%one_of_true; unfold levelForAbbr;
                  repeat (apply elem_of_cons in Hs as [->|Hs]);
                  try (by apply elem_of_nil in Hs); done|]).
  apply levelForAbbr_level_cases.
Qed.

Lemma levelForAbbr_clean_abbreviations_witness :
  levelForAbbr "" = (AllLevel, None) ∧
  levelForAbbr "Debug" = (DebugLevel, None) ∧
  levelForAbbr "ERR" = (ErrorLevel, None) ∧
  (levelForAbbr "oFf").2 = None.
Proof.
  split; [|split; [|split]].
  - apply (levelForAbbr_clean_abbreviations ""). reflexivity.
  - apply (levelForAbbr_clean_abbreviations "Debug"). reflexivity.
  - apply (levelForAbbr_clean_abbreviations "ERR"). reflexivity.
  - apply (levelForAbbr_clean_abbreviations "oFf"). reflexivity.
Defined.

(** X12.  On ASCII abbreviations [levelForAbbr] ignores the case: two
    abbreviations with the same lower-casing get the same level, and both
    get a note or neither does. *)
Theorem levelForAbbr_case_insensitive `{Env} (a b : string) :
  isASCII a = true → isASCII b = true → lower_bytes a = lower_bytes b →
  (levelForAbbr a).1 = (levelForAbbr b).1 ∧
  ((levelForAbbr a).2 = None ↔ (levelForAbbr b).2 = None).
Proof.
  intros Ha Hb Hab.
  assert (ToLower a = ToLower b) as Heq.
  { by rewrite (ToLower_ascii a Ha), (ToLower_ascii b Hb). }
  split.
  - unfold levelForAbbr. rewrite Heq.
    repeat match goal with
    | |- context [if ?c then _ else _] => destruct c
    end; done.
  - by rewrite !levelForAbbr_note_iff, Heq.
Qed.

Lemma levelForAbbr_case_insensitive_witness :
  (levelForAbbr "dEbUg").1 = (levelForAbbr "DEBUG").1.
Proof.
  apply (levelForAbbr_case_insensitive "dEbUg" "DEBUG"); reflexivity.
Defined.

Section LevelsMore.
Context `{Env}.

Lemma notesOf_nil_iff s :
  notesOf s = [] ↔
  ∀ k t, parseConfigString s !! k = Some (SString t) →
         one_of (ToLower t) cleanAbbrs = true.
Proof.
  split.
  - intros Hnil k t Hk. apply levelForAbbr_note_iff.
    destruct ((levelForAbbr t).2) as [note|] eqn:Hnote; [|done].
    assert (note ∈ notesOf s) as Hin by (apply notesOf_elem; eauto).
    rewrite Hnil in Hin. by apply elem_of_nil in Hin.
  - intros Hall. apply notesOf_nil. intros k t Hk.
    by apply levelForAbbr_note_iff, (Hall k).
Qed.

Lemma LevelsString_settings r s :
  defaultLevel (LevelsString r s).1 = default (defaultLevel r) (levelsOf s !! "*") ∧
  encoder (LevelsString r s).1 = encoder r ∧ out (LevelsString r s).1 = out r ∧
  addCaller (LevelsString r s).1 = addCaller r.
Proof.
  pose proof (beforeRefresh_settings r s) as Hb.
  rewrite LevelsString_cases. destruct (0 <? length (notesOf s)); simpl; [done|].
  destruct (refreshLoggers_sameSettings (beforeRefresh r s)) as (-> & -> & -> & ->).
  done.
Qed.

End LevelsMore.

Section LevelsNames.
Context `{Env}.

Lemma setLevel_dom r n l :
  dom (loggers (setLevel r n l)) = {[n]} ∪ dom (loggers r).
Proof.
  rewrite setLevel_unfold. simpl. rewrite getLoggerInfo_loggers. apply dom_insert_L.
Qed.

Lemma setAll_dom l r :
  dom (loggers (setAll r l)) = dom (loggers r) ∪ list_to_set l.*1.
Proof.
  revert r. induction l as [|kv l IH]; intros r.
  { simpl. by rewrite (right_id_L ∅ (∪)). }
  unfold setAll in *. simpl. rewrite IH, setLevel_dom.
  rewrite (comm_L (∪) {[kv.1]}), <- (assoc_L (∪)). done.
Qed.

Lemma range_keys {A} (m : gmap string A) :
  list_to_set (range m).*1 = (dom m : gset string).
Proof.
  apply set_eq. intros x.
  rewrite elem_of_list_to_set, list_elem_of_fmap, elem_of_dom. split.
  - intros ([k v] & -> & Hin%range_elem). by eexists.
  - intros [v Hv]. exists (x, v). split; [done|by apply range_elem].
Qed.

Lemma beforeRefresh_dom r s :
  dom (loggers (beforeRefresh r s)) =
    dom (loggers r) ∪ (dom (parseConfigString s) ∖ {["*"]}).
Proof.
  destruct (beforeRefresh_start r s) as (r1 & -> & _ & _ & _ & _ & Hl & _).
  rewrite setAll_dom, range_keys. unfold resetAll. simpl. rewrite Hl.
  unfold levelsOf. by rewrite dom_delete_L, dom_fmap_L.
Qed.

Lemma LevelsString_dom r s :
  dom (loggers (LevelsString r s).1) =
    dom (loggers r) ∪ (dom (parseConfigString s) ∖ {["*"]}).
Proof.
  rewrite LevelsString_cases. destruct (0 <? length (notesOf s)); simpl.
  - apply beforeRefresh_dom.
  - rewrite refreshLoggers_loggers. apply beforeRefresh_dom.
Qed.

End LevelsNames.

(** [LevelsString] on a level string without notes. *)
Lemma LevelsString_clean `{Env} (r : Factory) (s : string) :
  wf r → notesOf s = [] →
  let r' := (LevelsString r s).1 in
  (LevelsString r s).2 = None ∧
  defaultLevel r' = default (defaultLevel r) (levelsOf s !! "*") ∧
  (∀ n lv, n ≠ "*" → levelsOf s !! n = Some lv →
     entry r' n =
       Some (mkInfo (Some (ConstLevel lv))
               (mkAtomic (Some (mkSugared (getEncoder r) (getOut r) (ConstLevel lv)
                                  (addCaller r) n))))) ∧
  (∀ n, delete "*" (levelsOf s) !! n = None →
     entry r' n =
       (λ _, mkInfo (Some AtomicDefault)
               (mkAtomic (Some (mkSugared (getEncoder r) (getOut r) AtomicDefault
                                  (addCaller r) n)))) <$> entry r n).
Proof.
  intros Hwf Hclean r'.
  pose proof (wf_beforeRefresh r s Hwf) as Hwfb.
  destruct (beforeRefresh_settings r s) as (Hd & He & Ho & Ha).
  assert (r' = refreshLoggers (beforeRefresh r s)) as Hr'.
  { unfold r'. by rewrite LevelsString_cases, Hclean. }
  split; [by rewrite LevelsString_cases, Hclean|].
  split; [apply LevelsString_settings|]. split.
  - intros n lv Hne Hn.
    destruct (beforeRefresh_named r s n lv Hwf Hne Hn) as (af & Hent & _).
    rewrite Hr', (entry_refresh_built _ _ _ Hwfb Hent). simpl.
    unfold getEncoder, getOut. by rewrite He, Ho, Ha.
  - intros n Hn. pose proof (beforeRefresh_unnamed r s n Hwf Hn) as Hent.
    destruct (entry r n) as [info|] eqn:Hi; simpl in *.
    + rewrite Hr', (entry_refresh_built _ _ _ Hwfb Hent). simpl.
      unfold getEncoder, getOut. by rewrite He, Ho, Ha.
    + by rewrite Hr', entry_refreshLoggers, Hent.
Qed.

(** X13.  When every value after an "=" in the level string is an
    abbreviation without note, [LevelsString] returns [nil] and rebuilds:
    each name of the string other than "*" ends with its level as override
    and an instance built with that constant level, each other existing
    entry ends with the factory's [AtomicLevel] as enabler and an instance
    that follows the default level, and the default level is the level of
    "*" if the string has one. *)
Theorem LevelsString_without_notes `{Env} (r : Factory) (s : string) :
  wf r →
  (∀ k t, parseConfigString s !! k = Some (SString t) →
          one_of (ToLower t) cleanAbbrs = true) →
  let r' := (LevelsString r s).1 in
  (LevelsString r s).2 = None ∧
  defaultLevel r' = default (defaultLevel r) (levelsOf s !! "*") ∧
  (∀ n lv, n ≠ "*" → levelsOf s !! n = Some lv →
     entry r' n =
       Some (mkInfo (Some (ConstLevel lv))
               (mkAtomic (Some (mkSugared (getEncoder r) (getOut r) (ConstLevel lv)
                                  (addCaller r) n))))) ∧
  (∀ n, delete "*" (levelsOf s) !! n = None →
     entry r' n =
       (λ _, mkInfo (Some AtomicDefault)
               (mkAtomic (Some (mkSugared (getEncoder r) (getOut r) AtomicDefault
                                  (addCaller r) n)))) <$> entry r n).
Proof.
  intros Hwf Hclean%notesOf_nil_iff. by apply LevelsString_clean.
Qed.

Lemma LevelsString_without_notes_witness :
  let r := SetLevel NewFactory "sql" ErrorLevel in
  let r' := (LevelsString r "http=DBG,db=,-gc").1 in
  defaultLevel r' = OffLevel ∧
  levelEnabler <$> entry r' "db" = Some (Some (ConstLevel AllLevel)) ∧
  levelEnabler <$> entry r' "sql" = Some (Some AtomicDefault).
Proof.
  intros r r'.
  assert (wf r) as Hwf.
  { unfold r, SetLevel. apply wf_refreshLoggers, wf_setLevel, wf_NewFactory. }
  destruct (LevelsString_without_notes r "http=DBG,db=,-gc" Hwf) as (_ & Hd & Hn & Hu).
  { intros k t.
    replace (parseConfigString "http=DBG,db=,-gc") with
      (<["gc" := SBool false]> (<["db" := SString ""]>
         ({["http" := SString "DBG"]} : gmap string setting))) by reflexivity.
    rewrite !lookup_insert_Some, lookup_singleton_Some.
    intros [[_ [=]]|[_ [[_ [= <-]]|[_ [_ [= <-]]]]]]; reflexivity. }
  fold r' in Hd, Hn, Hu.
  split; [exact Hd|]. split.
  - rewrite (Hn "db" AllLevel); [reflexivity|discriminate|reflexivity].
  - rewrite (Hu "sql"); reflexivity.
Defined.

(** X14.  [LevelsString] returns an error exactly when the map that
    [parseConfigString] builds from the string holds, for some name, a
    string value that is not, lower-cased, one of "", "off", "dbg",
    "debug", "inf", "info", "err", "error".  The values that count are
    those of the parsed map: an item that a later item for the same name
    replaces, or that is dropped for its two "=", contributes nothing.  The
    message is then the fixed prefix followed by the notes, joined by ", ",
    and the notes are those of the string values of the parsed map. *)
Theorem LevelsString_error_iff `{Env} (r : Factory) (s : string) :
  ((LevelsString r s).2 = None ↔
   ∀ k t, parseConfigString s !! k = Some (SString t) →
          one_of (ToLower t) cleanAbbrs = true) ∧
  ((LevelsString r s).2 ≠ None →
   (LevelsString r s).2 =
     Some ("errors parsing config string: " +:+ Join (notesOf s) ", ")) ∧
  (∀ note, note ∈ notesOf s ↔
           ∃ k t, parseConfigString s !! k = Some (SString t) ∧
                  (levelForAbbr t).2 = Some note).
Proof.
  split; [|split; [|apply notesOf_elem]].
  - rewrite <- notesOf_nil_iff, LevelsString_cases.
    destruct (notesOf s); simpl; by split.
  - rewrite LevelsString_cases. by destruct (0 <? length (notesOf s)).
Qed.

Lemma LevelsString_error_iff_witness :
  (LevelsString NewFactory "a=INF,b=trace").2 =
    Some "errors parsing config string: TRC is deprecated, mapped to DEBUG".
Proof.
  destruct (LevelsString_error_iff NewFactory "a=INF,b=trace") as (_ & Hmsg & _).
  rewrite Hmsg; [reflexivity|]. vm_compute. intros Hc. discriminate Hc.
Defined.

(** X15.  [LevelsString] never changes the encoder, the sink or the
    caller flag, with or without notes; the default level becomes the level
    of the "*" item, and stays as it was when the string has no "*"
    item. *)
Theorem LevelsString_keeps_settings `{Env} (r : Factory) (s : string) :
  encoder (LevelsString r s).1 = encoder r ∧
  out (LevelsString r s).1 = out r ∧
  addCaller (LevelsString r s).1 = addCaller r ∧
  defaultLevel (LevelsString r s).1 = default (defaultLevel r) (levelsOf s !! "*") ∧
  (parseConfigString s !! "*" = None →
   defaultLevel (LevelsString r s).1 = defaultLevel r).
Proof.
  destruct (LevelsString_settings r s) as (Hd & He & Ho & Ha).
  repeat split; try done.
  intros Hstar. rewrite Hd. unfold levelsOf. by rewrite lookup_fmap, Hstar.
Qed.

Lemma LevelsString_keeps_settings_witness :
  let r := SetDefaultLevel NewFactory ErrorLevel in
  defaultLevel (LevelsString r "http=INF,sql=bogus").1 = ErrorLevel.
Proof.
  intros r.
  destruct (LevelsString_keeps_settings r "http=INF,sql=bogus") as (_ & _ & _ & _ & Hd).
  rewrite Hd; reflexivity.
Defined.

(** X16.  The names of the registry after [LevelsString] are the names
    it had and the names of the items of the string other than "*":
    [LevelsString] creates an entry for each name it mentions, with or
    without notes, and no other. *)
Theorem LevelsString_names `{Env} (r : Factory) (s : string) :
  dom (loggers (LevelsString r s).1) =
    dom (loggers r) ∪ (dom (parseConfigString s) ∖ {["*"]}).
Proof.
  rewrite LevelsString_cases. destruct (0 <? length (notesOf s)); simpl.
  - apply beforeRefresh_dom.
  - rewrite refreshLoggers_loggers. apply beforeRefresh_dom.
Qed.

(** X17.  [LevelsString("")] returns [nil], creates nothing, leaves the
    settings and the default level as they were, and resets every entry to
    the factory's [AtomicLevel] with an instance that follows the default
    level. *)
Theorem LevelsString_empty_resets_all `{Env} (r : Factory) (n : string) :
  wf r →
  let r' := (LevelsString r "").1 in
  (LevelsString r "").2 = None ∧
  loggers r' = loggers r ∧
  defaultLevel r' = defaultLevel r ∧
  entry r' n =
    (λ _, mkInfo (Some AtomicDefault)
            (mkAtomic (Some (mkSugared (getEncoder r) (getOut r) AtomicDefault
                               (addCaller r) n)))) <$> entry r n.
Proof.
  intros Hwf r'.
  destruct (LevelsString_clean r "" Hwf) as (Herr & Hd & _ & Hu).
  { by apply notesOf_nil_iff. }
  fold r' in Hd, Hu.
  split; [done|]. split; [|split; [done|by apply Hu]].
  unfold r'. rewrite LevelsString_cases.
  assert (beforeRefresh r "" = resetAll ∅ r) as Hb.
  { unfold beforeRefresh, levelsOf.
    replace (parseConfigString "") with (∅ : gmap string setting) by reflexivity.
    rewrite fmap_empty, lookup_empty, delete_empty.
    assert (range (∅ : gmap string Level) = []) as ->; [|done].
    apply Permutation_nil_r. by rewrite range_perm, map_to_list_empty. }
  destruct (0 <? length (notesOf "")); simpl; rewrite ?refreshLoggers_loggers, Hb; done.
Qed.

Lemma LevelsString_empty_resets_all_witness :
  let r := SetLevel NewFactory "sql" ErrorLevel in
  levelEnabler <$> entry (LevelsString r "").1 "sql" = Some (Some AtomicDefault).
Proof.
  intros r.
  assert (wf r) as Hwf.
  { unfold r, SetLevel. apply wf_refreshLoggers, wf_setLevel, wf_NewFactory. }
  destruct (LevelsString_empty_resets_all r "sql" Hwf) as (_ & _ & _ & Hent).
  rewrite Hent. reflexivity.
Defined.

(** * Further properties of the parser *)

Section SplitLemmas.

Lemma Split_nonempty s c : Split s c ≠ [].
Proof.
  destruct s as [|a s]; simpl; [done|].
  destruct (Ascii.eqb a c); [done|]. by destruct (Split s c).
Qed.

Lemma Split_cons_ne a s c :
  Ascii.eqb a c = false →
  ∃ hd tl, Split s c = hd :: tl ∧ Split (String a s) c = String a hd :: tl.
Proof.
  intros Hne. simpl. rewrite Hne.
  destruct (Split s c) as [|hd tl] eqn:Hs; [by apply Split_nonempty in Hs|eauto].
Qed.

(** Splitting at a separator splits the pieces on each side of it. *)
Lemma Split_app s t c : Split (s +:+ String c t) c = Split s c ++ Split t c.
Proof.
  induction s as [|a s IH].
  - simpl. by rewrite Ascii.eqb_refl.
  - destruct (Ascii.eqb a c) eqn:Hac.
    + simpl. by rewrite Hac, IH.
    + destruct (Split_cons_ne a s c Hac) as (hd & tl & Hs & ->).
      change (String a s +:+ String c t) with (String a (s +:+ String c t)).
      simpl. rewrite Hac, IH, Hs. done.
Qed.

Lemma Split_none s c : Count s c = 0 → Split s c = [s].
Proof.
  induction s as [|a s IH]; [done|]. simpl.
  destruct (Ascii.eqb a c); [done|]. simpl. intros Hs. by rewrite IH.
Qed.

Lemma Split_length s c : length (Split s c) = S (Count s c).
Proof.
  induction s as [|a s IH]; [done|]. simpl.
  destruct (Ascii.eqb a c); simpl; [by rewrite IH|].
  destruct (Split s c) as [|hd tl] eqn:Hs; [by apply Split_nonempty in Hs|].
  simpl in *. done.
Qed.

(** A piece has no separator, and no more of any byte than the whole. *)
Lemma Split_elem s c x :
  x ∈ Split s c → Count x c = 0 ∧ ∀ d, Count x d ≤ Count s d.
Proof.
  revert x. induction s as [|a s IH]; intros x.
  { simpl. intros ->%list_elem_of_singleton. by split. }
  destruct (Ascii.eqb a c) eqn:Hac.
  - simpl. rewrite Hac. intros [->|Hx]%elem_of_cons.
    + split; [done|]. intros d. simpl. lia.
    + destruct (IH x Hx) as [H0 Hle]. split; [done|].
      intros d. specialize (Hle d). simpl. lia.
  - destruct (Split_cons_ne a s c Hac) as (hd & tl & Hs & ->).
    intros [->|Hx]%elem_of_cons.
    + destruct (IH hd) as [H0 Hle]; [rewrite Hs; by left|]. simpl. rewrite Hac.
      split; [done|]. intros d. specialize (Hle d). lia.
    + destruct (IH x) as [H0 Hle]; [rewrite Hs; by right|]. split; [done|].
      intros d. specialize (Hle d). simpl. lia.
Qed.

Lemma Count_from1 s d : Count (from1 s) d ≤ Count s d.
Proof. destruct s; simpl; lia. Qed.

Lemma foldl_preserves_in {A B} (P : A → Prop) (f : A → B → A) (l : list B) a :
  (∀ a b, b ∈ l → P a → P (f a b)) → P a → P (foldl f a l).
Proof.
  revert a. induction l as [|b l IH]; intros a Hstep Ha; [done|].
  simpl. apply IH.
  - intros a' b' Hb'. apply Hstep. by right.
  - apply Hstep; [by left|done].
Qed.

(** [parseConfigString] on a string that ends in one more item. *)
Lemma parse_snoc s item :
  Count item "," = 0 →
  foldl parseItem ∅ (Split (s +:+ String "," item) ",") =
    parseItem (foldl parseItem ∅ (Split s ",")) item.
Proof.
  intros Hitem. by rewrite Split_app, foldl_app, (Split_none item).
Qed.

Lemma parse_nonempty s :
  s ≠ "" → parseConfigString s = foldl parseItem ∅ (Split s ",").
Proof. intros Hs. unfold parseConfigString. by rewrite bool_decide_eq_false_2. Qed.

Lemma append_nonempty s c t : s +:+ String c t ≠ "".
Proof. by destruct s. Qed.

Lemma parse_append s item :
  s ≠ "" → Count item "," = 0 →
  parseConfigString (s +:+ String "," item) = parseItem (parseConfigString s) item.
Proof.
  intros Hs Hitem.
  rewrite (parse_nonempty (s +:+ _)) by apply append_nonempty.
  by rewrite parse_snoc, parse_nonempty.
Qed.

End SplitLemmas.

(** X18.  Items are applied from left to right and a later item for a
    name replaces an earlier one: appending ",name", ",-name" or
    ",name=v" to a non-empty level string gives the parsed map of the
    string with the name set to [true], to [false], or to the value. *)
Theorem parseConfigString_last_item_wins (s name v : string) :
  s ≠ "" → Count name "," = 0 → Count name "=" = 0 →
  Count v "," = 0 → Count v "=" = 0 →
  (HasPrefix name "-" = false →
     parseConfigString (s +:+ "," +:+ name) = <[name := SBool true]> (parseConfigString s)) ∧
  parseConfigString (s +:+ ",-" +:+ name) = <[name := SBool false]> (parseConfigString s) ∧
  parseConfigString (s +:+ "," +:+ name +:+ "=" +:+ v) =
    <[name := SString v]> (parseConfigString s).
Proof.
  intros Hs Hn1 Hn2 Hv1 Hv2. split; [|split].
  - intros Hpre. change ("," +:+ name) with (String "," name).
    rewrite parse_append by done. unfold parseItem.
    by rewrite (Split_none name "=" Hn2), Hpre.
  - change (",-" +:+ name) with (String "," (String "-" name)).
    rewrite parse_append by done. unfold parseItem.
    by rewrite (Split_none (String "-" name) "=" Hn2).
  - change ("," +:+ name +:+ "=" +:+ v) with (String "," (name +:+ String "=" v)).
    rewrite parse_append.
    + unfold parseItem. by rewrite Split_app, (Split_none name), (Split_none v).
    + done.
    + clear -Hn1 Hv1. induction name as [|a name IH]; [done|].
      simpl in *. destruct (Ascii.eqb a ","); [done|]. by apply IH.
Qed.

Lemma parseConfigString_last_item_wins_witness :
  parseConfigString ("http=INF,sql" +:+ "," +:+ "http" +:+ "=" +:+ "DBG") =
    <["http" := SString "DBG"]> (parseConfigString "http=INF,sql").
Proof.
  apply (parseConfigString_last_item_wins "http=INF,sql" "http" "DBG");
    (reflexivity || discriminate).
Defined.

(** X19.  An item with two or more "=" is dropped without a trace: it
    changes nothing in the parsed map, so [LevelsString] neither applies it
    nor reports it. *)
Theorem parseConfigString_drops_double_equals (s item : string) :
  s ≠ "" → Count item "," = 0 → 2 ≤ Count item "=" →
  (∀ m, parseItem m item = m) ∧
  parseConfigString (s +:+ "," +:+ item) = parseConfigString s.
Proof.
  intros Hs H1 H2.
  assert (∀ m, parseItem m item = m) as Hdrop.
  { intros m. unfold parseItem. pose proof (Split_length item "=") as Hlen.
    destruct (Split item "=") as [|x [|y [|z tl]]]; simpl in Hlen; (done || lia). }
  split; [done|]. change ("," +:+ item) with (String "," item).
  by rewrite parse_append, Hdrop.
Qed.

Lemma parseConfigString_drops_double_equals_witness :
  parseConfigString ("*=INF" +:+ "," +:+ "http=DBG=x") = parseConfigString "*=INF".
Proof.
  apply (parseConfigString_drops_double_equals "*=INF" "http=DBG=x");
    [discriminate|reflexivity|vm_compute; lia].
Defined.

(** X20.  The keys of the parsed map contain neither "," nor "=", and
    neither do its string values. *)
Theorem parseConfigString_no_separators (s k : string) (v : setting) :
  parseConfigString s !! k = Some v →
  Count k "," = 0 ∧ Count k "=" = 0 ∧
  ∀ t, v = SString t → Count t "," = 0 ∧ Count t "=" = 0.
Proof.
  set (P := λ m : gmap string setting,
         ∀ k v, m !! k = Some v →
                Count k "," = 0 ∧ Count k "=" = 0 ∧
                ∀ t, v = SString t → Count t "," = 0 ∧ Count t "=" = 0).
  assert (P (parseConfigString s)) as HP; [|apply HP].
  unfold parseConfigString. case_bool_decide.
  { intros k' v'. by rewrite lookup_empty. }
  apply (foldl_preserves_in P).
  2: { intros k' v'. by rewrite lookup_empty. }
  intros m item [Hitem _]%Split_elem Hm.
  assert (∀ x, x ∈ Split item "=" → Count x "," = 0 ∧ Count x "=" = 0) as Hparts.
  { intros x [Hx Hle]%Split_elem. specialize (Hle ","%char). split; [lia|done]. }
  unfold parseItem.
  destruct (Split item "=") as [|x [|y [|z tl]]] eqn:Hsplit; try done.
  - destruct (Hparts x) as [Hx1 Hx2]; [by left|].
    destruct (HasPrefix x "-"); intros k' v' [[<- <-]|[_ Hk]]%lookup_insert_Some;
      try (by apply Hm).
    + pose proof (Count_from1 x ","). pose proof (Count_from1 x "=").
      split; [lia|]. split; [lia|done].
    + done.
  - destruct (Hparts x) as [Hx1 Hx2]; [by left|].
    destruct (Hparts y) as [Hy1 Hy2]; [right; by left|].
    intros k' v' [[<- <-]|[_ Hk]]%lookup_insert_Some; [|by apply Hm].
    split; [done|]. split; [done|]. by intros t [= <-].
Qed.

Lemma parseConfigString_no_separators_witness :
  Count "http" "," = 0 ∧ Count "http" "=" = 0.
Proof.
  destruct (parseConfigString_no_separators "*=INF,http=DBG" "http" (SString "DBG"))
    as (H1 & H2 & _); [reflexivity|]. split; [exact H1|exact H2].
Defined.

Section LevelsBothPaths.
Context `{Env}.

(** With or without notes, a name of the level string ends with its level
    as override. *)
Lemma LevelsString_named_enabler r s n lv :
  wf r → n ≠ "*" → levelsOf s !! n = Some lv →
  ∃ af, entry (LevelsString r s).1 n = Some (mkInfo (Some (ConstLevel lv)) af).
Proof.
  intros Hwf Hne Hn.
  destruct (beforeRefresh_named r s n lv Hwf Hne Hn) as (af & Hent & _).
  rewrite LevelsString_cases. destruct (0 <? length (notesOf s)); simpl; [eauto|].
  rewrite entry_refreshLoggers, Hent by (by apply wf_beforeRefresh). simpl. eauto.
Qed.

Lemma parse_trailing_comma s :
  parseConfigString (s +:+ ",") = <["" := SBool true]> (foldl parseItem ∅ (Split s ",")).
Proof.
  change (s +:+ ",") with (s +:+ String "," "").
  rewrite parse_nonempty by apply append_nonempty. by rewrite parse_snoc.
Qed.

End LevelsBothPaths.

(** X21.  A trailing comma is an item of its own, with the empty name: the
    parsed map sets the empty name to [true], and [LevelsString] leaves an
    entry for the logger named "" with the override [AllLevel]. *)
Theorem trailing_comma_enables_empty_name `{Env} (r : Factory) (s : string) :
  wf r →
  parseConfigString (s +:+ ",") !! "" = Some (SBool true) ∧
  levelEnabler <$> entry (LevelsString r (s +:+ ",")).1 "" =
    Some (Some (ConstLevel AllLevel)).
Proof.
  intros Hwf.
  assert (parseConfigString (s +:+ ",") !! "" = Some (SBool true)) as Hp.
  { rewrite parse_trailing_comma. apply lookup_insert_eq. }
  split; [done|].
  destruct (LevelsString_named_enabler r (s +:+ ",") "" AllLevel Hwf) as (af & ->);
    [done| |done].
  unfold levelsOf. by rewrite lookup_fmap, Hp.
Qed.

Lemma trailing_comma_enables_empty_name_witness :
  levelEnabler <$> entry (LevelsString NewFactory ("*=INF" +:+ ",")).1 "" =
    Some (Some (ConstLevel AllLevel)).
Proof.
  apply (trailing_comma_enables_empty_name NewFactory "*=INF"), wf_NewFactory.
Defined.

(** * Further properties of [Configure] *)

(** X22.  When [Configure] accepts the encoding name, the encoder it
    stores is built on a configuration whose [EncodeCaller] and
    [EncodeLevel] are both set: the ones of the configuration in use (the
    one given, else the development or the production default) where it
    has them, else [ShortCallerEncoder] and [AbbrLevelEncoder].  "json",
    "ltsv", "term", "term-color" and "console" select the JSON, LTSV,
    console, colorized console and zap console encoders, and the empty name
    selects the colorized console encoder in development mode and LTSV
    otherwise. *)
Theorem Configure_encoder_choice `{Env} (r : Factory) (cfg : Config) :
  one_of (Encoding cfg) knownEncodings = true →
  let base := match cfgEncoderConfig cfg with
              | Some c => c
              | None => if Development cfg then NewDevelopmentEncoderConfig
                        else NewEncoderConfig
              end in
  let c := mkEncoderConfig (Some (default ShortCallerEncoder (EncodeCaller base)))
                           (Some (default AbbrLevelEncoder (EncodeLevel base)))
                           (otherKeys base) in
  ∃ mk, encoder (Configure r cfg).1 = Some (mk c) ∧
        (Encoding cfg = "json" → mk = NewJSONEncoder) ∧
        (Encoding cfg = "ltsv" → mk = NewLTSVEncoder) ∧
        (Encoding cfg = "term" → mk = NewConsoleEncoder) ∧
        (Encoding cfg = "term-color" → mk = NewColorizedConsoleEncoder) ∧
        (Encoding cfg = "console" → mk = zapNewConsoleEncoder) ∧
        (Encoding cfg = "" →
         mk = if Development cfg then NewColorizedConsoleEncoder else NewLTSVEncoder).
Proof.
  intros Henc%one_of_true base c.
  assert (∀ r0 e b, encoder (refreshLoggers (withAddCaller (withEncoder r0 (Some e)) b))
                    = Some e) as Hset.
  { intros r0 e b.
    by destruct (refreshLoggers_sameSettings (withAddCaller (withEncoder r0 (Some e)) b))
      as (_ & -> & _). }
  unfold Configure. fold base. subst c. clearbody base.
  destruct base as [[ec|] [el|] ok];
    repeat (apply elem_of_cons in Henc as [->|Henc]);
    try (by apply elem_of_nil in Henc); simpl; rewrite Hset.
  all: try (by (exists NewJSONEncoder; repeat split)).
  all: try (by (exists NewLTSVEncoder; repeat split)).
  all: try (by (exists NewConsoleEncoder; repeat split)).
  all: try (by (exists NewColorizedConsoleEncoder; repeat split)).
  all: try (by (exists zapNewConsoleEncoder; repeat split)).
  all: exists (if Development cfg then NewColorizedConsoleEncoder else NewLTSVEncoder);
    (split; [by destruct (Development cfg)|]); by repeat split.
Qed.

Lemma Configure_encoder_choice_witness :
  encoder (Configure NewFactory (mkConfig 0 None "" true None "*")).1 =
    Some (NewColorizedConsoleEncoder
            (mkEncoderConfig (Some ShortCallerEncoder) (Some AbbrLevelEncoder) 1)).
Proof.
  destruct (Configure_encoder_choice NewFactory (mkConfig 0 None "" true None "*"))
    as (mk & Henc & _ & _ & _ & _ & _ & Hmk); [reflexivity|].
  rewrite Henc, Hmk; reflexivity.
Defined.

Section ConfigureMore.
Context `{Env}.

Lemma Configure_success_form r cfg :
  one_of (Encoding cfg) knownEncodings = true →
  ∃ e, (Configure r cfg).1 =
         refreshLoggers
           (withAddCaller
              (withEncoder
                 (LevelsString (SetDefaultLevel r (DefaultLevel cfg)) (Levels cfg)).1
                 (Some e))
              (default (Development cfg) (AddCaller cfg))).
Proof.
  intros Henc%one_of_true. unfold Configure.
  repeat (apply elem_of_cons in Henc as [->|Henc]); [..|by apply elem_of_nil in Henc];
    simpl; destruct (AddCaller cfg); simpl; eauto.
Qed.

End ConfigureMore.

(** X23.  After a [Configure] that accepts the encoding name, the caller
    flag is the explicit one, else the development flag; the sink is
    untouched; the default level is the level of the "*" item of the level
    string, else the default level of the configuration; the registry has
    an entry for each name of the level string; every entry publishes the
    instance built from these settings; and each name of the level string
    has its level as override, also when the level string has notes. *)
Theorem Configure_success_state `{Env} (r : Factory) (cfg : Config) (n : string) :
  wf r → one_of (Encoding cfg) knownEncodings = true →
  let r' := (Configure r cfg).1 in
  addCaller r' = default (Development cfg) (AddCaller cfg) ∧
  out r' = out r ∧
  defaultLevel r' = default (DefaultLevel cfg) (levelsOf (Levels cfg) !! "*") ∧
  dom (loggers r') =
    dom (loggers r) ∪ (dom (parseConfigString (Levels cfg)) ∖ {["*"]}) ∧
  (is_Some (loggers r' !! n) → published r' n) ∧
  (∀ lv, n ≠ "*" → levelsOf (Levels cfg) !! n = Some lv →
         levelEnabler <$> entry r' n = Some (Some (ConstLevel lv))).
Proof.
  intros Hwf Henc r'.
  destruct (Configure_success_form r cfg Henc) as (e & Hform).
  set (r0 := SetDefaultLevel r (DefaultLevel cfg)) in *.
  set (r1 := (LevelsString r0 (Levels cfg)).1) in *.
  set (r2 := withAddCaller (withEncoder r1 (Some e))
               (default (Development cfg) (AddCaller cfg))) in *.
  assert (wf r0) as Hwf0 by (by apply (wf_same r)).
  assert (wf r1) as Hwf1 by (by apply wf_LevelsString).
  assert (wf r2) as Hwf2 by (by apply (wf_same r1)).
  destruct (LevelsString_settings r0 (Levels cfg)) as (Hd & _ & Ho & _).
  destruct (refreshLoggers_sameSettings r2) as (Hd2 & _ & Ho2 & Ha2).
  unfold r'. rewrite Hform.
  split; [by rewrite Ha2|]. split; [by rewrite Ho2|]. split; [by rewrite Hd2|].
  split; [|split].
  - rewrite refreshLoggers_loggers. apply (LevelsString_dom r0).
  - rewrite refreshLoggers_loggers. by apply published_refreshLoggers.
  - intros lv Hne Hlv.
    destruct (LevelsString_named_enabler r0 (Levels cfg) n lv Hwf0 Hne Hlv) as (af & Hent).
    rewrite entry_refreshLoggers by done.
    rewrite (entry_same r1 r2) by done. fold r1 in Hent. by rewrite Hent.
Qed.

Lemma Configure_success_state_witness :
  let r := (NewLogger NewFactory "http").1 in
  let cfg := mkConfig InfoLevel None "json" false None "http=DBG,sql=bogus" in
  published (Configure r cfg).1 "http" ∧
  levelEnabler <$> entry (Configure r cfg).1 "http" = Some (Some (ConstLevel DebugLevel)).
Proof.
  intros r cfg.
  assert (wf r) as Hwf.
  { unfold r. rewrite NewLogger_unfold. apply wf_getLoggerInfo, wf_NewFactory. }
  destruct (Configure_success_state r cfg "http" Hwf) as (_ & _ & _ & _ & Hp & Hl);
    [reflexivity|].
  split.
  - apply Hp. vm_compute. eauto.
  - apply (Hl DebugLevel); [discriminate|reflexivity].
Defined.

(** * Further properties of the facade *)

Section FacadeMore.
Context `{Env}.

Lemma normalizeArgs_other args : (∀ v, args ≠ [Bare v]) → normalizeArgs args = args.
Proof.
  intros Hne. destruct args as [|[k v|v] [|b tl]]; try done.
  by destruct (Hne v).
Qed.

(** A log call leaves alone what any valid slice shows, provided the slice
    does not look past the end of the facade's context in the same
    array. *)
Lemma logw_frame zm r m l msg args s' :
  wfSlice m (context l) → wfSlice m s' →
  arr s' ≠ arr (context l) ∨ len s' ≤ len (context l) →
  elems (logw zm r m l msg args).1 s' = elems m s' ∧
  wfSlice (logw zm r m l msg args).1 s'.
Proof.
  intros Hwf Hs' Hsep. destruct (loggerGet r l) as [lg|] eqn:Hget.
  - by apply (logw_spec zm r m l msg args lg Hwf Hget).
  - unfold logw. by rewrite Hget.
Qed.

Lemma wfSlice_arr_lt m s a : wfSlice m s → arr s = Some a → a < length m.
Proof.
  unfold wfSlice. intros Hwf Ha. rewrite Ha in Hwf.
  destruct Hwf as (cells & Hm & _). by eapply lookup_lt_Some.
Qed.

Lemma facadeStep_keeps r w op :
  contextsApart w →
  contextsApart (facadeStep r w op) ∧
  ∀ i l, w.2 !! i = Some l →
         (facadeStep r w op).2 !! i = Some l ∧
         elems (facadeStep r w op).1 (context l) = elems w.1 (context l).
Proof.
  destruct w as [m ls]. intros [Hall Hapart]. simpl in *.
  destruct op as [i args|i mt msg args]; simpl;
    destruct (ls !! i) as [l|] eqn:Hi; simpl; try (by repeat split).
  - assert (wfSlice m (context l)) as Hwf by (by apply (Forall_lookup_1 _ _ _ _ Hall Hi)).
    destruct (With_spec m l args Hwf) as (_ & Hw & Hf & _ & Hfr).
    split; [split|].
    + apply Forall_app. split.
      * apply Forall_forall. intros l' Hl'. apply Hfr.
        by apply (proj1 (Forall_forall _ _) Hall).
      * by apply Forall_singleton.
    + intros j k lj lk a Hjk Hj Hk Ha Hka.
      assert (∀ j' l', ls !! j' = Some l' → ∀ a', arr (context l') = Some a' →
                a' < length m) as Hold.
      { intros j' l' Hj' a' Ha'. apply (wfSlice_arr_lt m (context l')); [|done].
        by apply (Forall_lookup_1 _ _ _ _ Hall Hj'). }
      assert (∀ a', arr (context (With m l args).2) = Some a' → length m ≤ a') as Hnew.
      { intros a' Ha'. unfold freshIn in Hf. by rewrite Ha' in Hf. }
      apply lookup_app_Some in Hj as [Hj|[Hj1 Hj2]];
        apply lookup_app_Some in Hk as [Hk|[Hk1 Hk2]].
      * by apply (Hapart j k lj lk a).
      * apply list_lookup_singleton_Some in Hk2 as [_ <-].
        pose proof (Hold j lj Hj a Ha). pose proof (Hnew a Hka). lia.
      * apply list_lookup_singleton_Some in Hj2 as [_ <-].
        pose proof (Hold k lk Hk a Hka). pose proof (Hnew a Ha). lia.
      * apply list_lookup_singleton_Some in Hj2 as [Hj2 _].
        apply list_lookup_singleton_Some in Hk2 as [Hk2 _]. lia.
    + intros j lj Hj. split; [by apply lookup_app_l_Some|].
      apply Hfr. by apply (Forall_lookup_1 _ _ _ _ Hall Hj).
  - assert (wfSlice m (context l)) as Hwf by (by apply (Forall_lookup_1 _ _ _ _ Hall Hi)).
    rewrite invoke_logw.
    assert (∀ j lj, ls !! j = Some lj →
              elems (logw (zapOf mt) r m l msg args).1 (context lj) = elems m (context lj) ∧
              wfSlice (logw (zapOf mt) r m l msg args).1 (context lj)) as Hfr.
    { intros j lj Hj. apply logw_frame; [done| |].
      - by apply (Forall_lookup_1 _ _ _ _ Hall Hj).
      - destruct (decide (j = i)) as [->|Hji].
        + right. assert (lj = l) as -> by congruence. done.
        + destruct (arr (context lj)) as [a|] eqn:Ha.
          * left. intros Heq. by apply (Hapart j i lj l a).
          * right. pose proof (Forall_lookup_1 _ _ _ _ Hall Hj) as Hlj.
            unfold wfSlice in Hlj. simpl in Hlj. rewrite Ha in Hlj.
            destruct Hlj as [-> _]. lia. }
    split; [split|].
    + apply Forall_forall. intros lj [j Hj]%list_elem_of_lookup. by apply (Hfr j).
    + done.
    + intros j lj Hj. split; [done|]. by apply (Hfr j).
Qed.

End FacadeMore.

(** X24.  Chained [With] calls accumulate: the grandchild's context is the
    parent's, then the normalized arguments of the first call, then those
    of the second, each call normalizing its own arguments; all three
    facades share the handle; the contexts of the parent and of the child,
    and what any other valid slice shows, are unchanged; and [With] without
    arguments gives a facade with the same context. *)
Theorem With_chain_accumulates `{Env} (m : mem) (l : logger) (a b : list Arg) :
  wfSlice m (context l) →
  let m1 := (With m l a).1 in
  let c1 := (With m l a).2 in
  let m2 := (With m1 c1 b).1 in
  let c2 := (With m1 c1 b).2 in
  elems m2 (context c2) = elems m (context l) ++ normalizeArgs a ++ normalizeArgs b ∧
  elems m2 (context c1) = elems m (context l) ++ normalizeArgs a ∧
  loggerAtomic c2 = loggerAtomic l ∧
  (∀ s', wfSlice m s' → elems m2 s' = elems m s') ∧
  elems (With m l []).1 (context (With m l []).2) = elems m (context l).
Proof.
  intros Hwf m1 c1 m2 c2. subst m1 c1 m2 c2.
  destruct (With_spec m l a Hwf) as (He1 & Hw1 & _ & Ha1 & Hfr1).
  destruct (With_spec _ _ b Hw1) as (He2 & _ & _ & Ha2 & Hfr2).
  split; [by rewrite He2, He1, <- app_assoc|].
  split; [by destruct (Hfr2 _ Hw1) as [-> _]|].
  split; [by rewrite Ha2|]. split.
  - intros s' Hs'. destruct (Hfr1 s' Hs') as [<- Hs1]. by apply Hfr2.
  - destruct (With_spec m l [] Hwf) as (-> & _). apply app_nil_r.
Qed.

Lemma With_chain_accumulates_witness :
  let l := mkLogger 0 nilSlice in
  let c1 := (With [] l [Bare (VString "a")]).2 in
  let m1 := (With [] l [Bare (VString "a")]).1 in
  elems (With m1 c1 [Bare (VString "b")]).1 (context (With m1 c1 [Bare (VString "b")]).2)
    = [Field "" (VString "a"); Field "" (VString "b")].
Proof.
  intros l c1 m1.
  destruct (With_chain_accumulates [] l [Bare (VString "a")] [Bare (VString "b")])
    as (H1 & _); [apply wfSlice_nil|]. exact H1.
Defined.

(** X25.  The context of a facade never changes: starting from facades
    with valid contexts that share no backing array, whatever [With] and
    log calls are made on any of them, every facade still shows the fields
    it showed, and the facades, old and new, still share no backing
    array. *)
Theorem facade_contexts_immutable `{Env} (r : Factory) (w : mem * list logger)
    (ops : list facadeOp) :
  contextsApart w →
  let w' := foldl (facadeStep r) w ops in
  contextsApart w' ∧
  ∀ i l, w.2 !! i = Some l →
         w'.2 !! i = Some l ∧ elems w'.1 (context l) = elems w.1 (context l).
Proof.
  revert w. induction ops as [|op ops IH]; intros w Hw; simpl; [done|].
  destruct (facadeStep_keeps r w op Hw) as [Hw1 Hstep].
  destruct (IH _ Hw1) as [Hw' Hrest]. split; [done|].
  intros i l Hi. destruct (Hstep i l Hi) as [Hi1 He1].
  destruct (Hrest i l Hi1) as [Hi' He']. split; [done|]. by rewrite He'.
Qed.

Lemma facade_contexts_immutable_witness :
  let r := (NewLogger NewFactory "http").1 in
  let l := mkLogger 0 (mkSlice (Some 0) 1 2) in
  let w := ([[Field "a" (VInt 1); Bare VNil]], [l]) in
  let ops := [FLog 0 MInfo "first" [Field "k" VNil]; FWith 0 [Bare (VInt 2)];
              FLog 1 MDebug "second" [Bare (VInt 3)]; FLog 0 MError "third" []] in
  elems (foldl (facadeStep r) w ops).1 (context l) = [Field "a" (VInt 1)].
Proof.
  intros r l w ops.
  assert (contextsApart w) as Hw.
  { split.
    - apply Forall_singleton. exists [Field "a" (VInt 1); Bare VNil].
      simpl. repeat split; lia.
    - intros [|i] [|j] li lj a Hij Hi Hj; (done || by destruct i || by destruct j). }
  destruct (facade_contexts_immutable r w ops Hw) as [_ Hall].
  destruct (Hall 0 l eq_refl) as [_ He]. exact He.
Defined.

(** X26.  A log call whose arguments are not a single bare value passes
    them to zap as they are, after the facade's context; with no arguments
    the record carries the context alone. *)
Theorem log_arguments_pass_through `{Env} (mt : logMethod) (r : Factory) (m : mem)
    (l : logger) (msg : string) (args : list Arg) (lg : SugaredLogger) :
  wfSlice m (context l) → loggerGet r l = Some lg → (∀ v, args ≠ [Bare v]) →
  (invoke mt r m l msg args).2 =
    Some (mkCall lg (zapOf mt) msg (elems m (context l) ++ args)) ∧
  (invoke mt r m l msg []).2 = Some (mkCall lg (zapOf mt) msg (elems m (context l))).
Proof.
  intros Hwf Hget Hargs. rewrite !invoke_logw.
  destruct (logw_spec (zapOf mt) r m l msg args lg Hwf Hget) as [-> _].
  destruct (logw_spec (zapOf mt) r m l msg [] lg Hwf Hget) as [-> _].
  by rewrite (normalizeArgs_other args Hargs), app_nil_r.
Qed.

Lemma log_arguments_pass_through_witness :
  let r := (NewLogger NewFactory "http").1 in
  let l := (NewLogger NewFactory "http").2 in
  keysAndValues <$> (invoke MInfo r [] l "msg" [Bare (VString "k"); Bare (VInt 1)]).2 =
    Some [Bare (VString "k"); Bare (VInt 1)].
Proof.
  intros r l.
  destruct (log_arguments_pass_through MInfo r [] l "msg"
              [Bare (VString "k"); Bare (VInt 1)]
              (newLogger NewFactory "http" (mkInfo None (mkAtomic None))))
    as [-> _]; [apply wfSlice_nil|reflexivity|discriminate|reflexivity].
Defined.

(** X27.  A facade picks up a reconfiguration without being obtained
    again: after [SetLevel], [SetEncoder], [SetOut], [SetAddCaller] or the
    closure of [SetOut], the next log call of a facade obtained before goes
    to an instance with the encoder, the sink and the caller flag of the
    new settings and the enabler of its entry. *)
Theorem facade_logs_to_rebuilt_instance `{Env} (r : Factory) (name : string)
    (op : adminOp) (mt : logMethod) (m : mem) (msg : string) (args : list Arg) :
  wf r → rebuilds op = true →
  let l := (NewLogger r name).2 in
  let r2 := run op (NewLogger r name).1 in
  ∃ info c, entry r2 name = Some info ∧
            (invoke mt r2 m l msg args).2 = Some c ∧
            coreEncoder (callee c) = getEncoder r2 ∧
            coreOut (callee c) = getOut r2 ∧
            optAddCaller (callee c) = addCaller r2 ∧
            coreEnabler (callee c) = default AtomicDefault (levelEnabler info) ∧
            loggerName (callee c) = name.
Proof.
  intros Hwf Hreb l r2.
  assert (wf (NewLogger r name).1) as Hwf1.
  { rewrite NewLogger_unfold. by apply wf_getLoggerInfo. }
  assert (loggers (NewLogger r name).1 !! name = Some (loggerAtomic l)) as H1.
  { unfold l. rewrite NewLogger_unfold. apply getLoggerInfo_lookup. }
  destruct (run_rebuilds op (NewLogger r name).1 Hreb) as (r0 & Hrun & Hwf0 & Hext0).
  destruct (published_refreshLoggers r0 name) as (info & Hi & Hget).
  { by apply Hwf0. } { exists (loggerAtomic l). by apply Hext0. }
  fold r2 in Hrun. rewrite <- Hrun in Hi, Hget.
  assert (loggerGet r2 l = Some (newLogger r2 name info)) as Hlg.
  { rewrite (loggerGet_entry r2 name).
    - by rewrite Hi.
    - rewrite Hrun, refreshLoggers_loggers. by apply Hext0. }
  exists info.
  assert (∃ kv, (invoke mt r2 m l msg args).2 =
                  Some (mkCall (newLogger r2 name info) (zapOf mt) msg kv)) as [kv Hc].
  { rewrite invoke_logw. unfold logw. rewrite Hlg.
    destruct (0 <? len (context l)); [|by eexists].
    destruct (append m (context l) (normalizeArgs args)). by eexists. }
  eexists. split; [done|]. split; [exact Hc|]. simpl.
  unfold newLogger. simpl. by destruct (levelEnabler info).
Qed.

Lemma facade_logs_to_rebuilt_instance_witness :
  ∃ c, (invoke MInfo (run (OpSetOut (Some (Sink 3))) (NewLogger NewFactory "http").1)
          [] (NewLogger NewFactory "http").2 "msg" []).2 = Some c ∧
       coreOut (callee c) = Sink 3.
Proof.
  destruct (facade_logs_to_rebuilt_instance NewFactory "http" (OpSetOut (Some (Sink 3)))
              MInfo [] "msg" [] wf_NewFactory eq_refl)
    as (info & c & _ & Hc & _ & Ho & _).
  exists c. split; [exact Hc|]. rewrite Ho. reflexivity.
Defined.

(** X28.  [NewLogger] for a name without entry allocates one struct, with
    no override and an instance built from the current settings that
    follows the default level; it binds the name to it, changes no setting
    and no other struct, and rebuilds nothing.  For a name with an entry it
    changes nothing at all. *)
Theorem NewLogger_creates_or_finds `{Env} (r : Factory) (name : string) :
  (loggers r !! name = None →
   infos (NewLogger r name).1 =
     infos r ++ [mkInfo None
                   (mkAtomic (Some (mkSugared (getEncoder r) (getOut r) AtomicDefault
                                      (addCaller r) name)))] ∧
   loggers (NewLogger r name).1 = <[name := length (infos r)]> (loggers r) ∧
   (NewLogger r name).2 = mkLogger (length (infos r)) nilSlice ∧
   sameSettings r (NewLogger r name).1) ∧
  (∀ p, loggers r !! name = Some p → NewLogger r name = (r, mkLogger p nilSlice)).
Proof.
  split.
  - intros Hn. rewrite NewLogger_unfold. simpl.
    destruct (getLoggerInfo_fresh_infos r name Hn) as [Hi Hp].
    rewrite Hi, Hp. split; [done|]. split; [|split; [done|]].
    + by rewrite getLoggerInfo_loggers, Hp.
    + apply getLoggerInfo_settings.
  - intros p Hp. by rewrite NewLogger_unfold, (getLoggerInfo_found _ _ _ Hp).
Qed.

Lemma NewLogger_creates_or_finds_witness :
  let r := SetLevel NewFactory "sql" ErrorLevel in
  length (infos (NewLogger r "http").1) = 2 ∧
  NewLogger (NewLogger r "http").1 "http" = ((NewLogger r "http").1, mkLogger 1 nilSlice).
Proof.
  intros r. split.
  - destruct (NewLogger_creates_or_finds r "http") as [Hnew _].
    destruct Hnew as (Hi & _); [reflexivity|]. rewrite Hi. reflexivity.
  - destruct (NewLogger_creates_or_finds (NewLogger r "http").1 "http") as [_ Hold].
    apply Hold. reflexivity.
Defined.

(** X29.  Applying a level string without notes a second time changes
    nothing that a facade or a later operation can see: the second call
    returns [nil] too, binds the same names to the same structs, leaves the
    settings and the default level as the first call left them, and every
    entry has the enabler and the instance it had. *)
Theorem LevelsString_idempotent `{Env} (r : Factory) (s n : string) :
  wf r →
  (∀ k t, parseConfigString s !! k = Some (SString t) →
          one_of (ToLower t) cleanAbbrs = true) →
  let r1 := (LevelsString r s).1 in
  let r2 := (LevelsString r1 s).1 in
  (LevelsString r1 s).2 = None ∧
  loggers r2 = loggers r1 ∧
  sameSettings r1 r2 ∧
  entry r2 n = entry r1 n.
Proof.
  intros Hwf Hclean%notesOf_nil_iff r1 r2.
  pose proof (wf_LevelsString r s Hwf) as Hwf1. fold r1 in Hwf1.
  destruct (LevelsString_clean r s Hwf Hclean) as (_ & Hd1 & Hn1 & Hu1).
  destruct (LevelsString_clean r1 s Hwf1 Hclean) as (Herr & Hd2 & Hn2 & Hu2).
  destruct (LevelsString_settings r s) as (_ & He1 & Ho1 & Ha1).
  destruct (LevelsString_settings r1 s) as (_ & He2 & Ho2 & Ha2).
  fold r1 in Hd1, Hn1, Hu1, He1, Ho1, Ha1. fold r2 in Hd2, Hn2, Hu2, He2, Ho2, Ha2.
  assert (getEncoder r1 = getEncoder r ∧ getOut r1 = getOut r) as [Hge Hgo].
  { unfold getEncoder, getOut. by rewrite He1, Ho1. }
  split; [done|]. split; [|split].
  - apply map_eq. intros k.
    destruct (loggers r1 !! k) as [p|] eqn:Hk.
    + by apply (LevelsString_extends r1 s).
    + apply not_elem_of_dom. unfold r2. rewrite LevelsString_dom.
      apply not_elem_of_dom in Hk. intros [Hin|Hin]%elem_of_union; [done|].
      apply Hk. unfold r1. rewrite LevelsString_dom. apply elem_of_union. by right.
  - unfold sameSettings. rewrite Hd2, Hd1, He2, Ho2, Ha2.
    by destruct (levelsOf s !! "*").
  - destruct (delete "*" (levelsOf s) !! n) as [lv|] eqn:Hn.
    + apply lookup_delete_Some in Hn as [Hne Hn].
      rewrite (Hn2 n lv), (Hn1 n lv) by done. by rewrite Hge, Hgo, Ha1.
    + rewrite (Hu2 n Hn), (Hu1 n Hn). rewrite Hge, Hgo, Ha1.
      by destruct (entry r n).
Qed.

Lemma LevelsString_idempotent_witness :
  let r := SetLevel NewFactory "sql" ErrorLevel in
  let r1 := (LevelsString r "*=INF,http").1 in
  entry (LevelsString r1 "*=INF,http").1 "sql" = entry r1 "sql".
Proof.
  intros r r1.
  assert (wf r) as Hwf.
  { unfold r, SetLevel. apply wf_refreshLoggers, wf_setLevel, wf_NewFactory. }
  destruct (LevelsString_idempotent r "*=INF,http" "sql" Hwf) as (_ & _ & _ & He).
  - intros k t.
    replace (parseConfigString "*=INF,http") with
      (<["http" := SBool true]> ({["*" := SString "INF"]} : gmap string setting))
      by reflexivity.
    rewrite lookup_insert_Some, lookup_singleton_Some.
    intros [[_ [=]]|[_ [_ [= <-]]]]. reflexivity.
  - exact He.
Defined.

(** * Two facades of one name *)

Section TwoFacades.
Context `{Env}.







End TwoFacades.



